(** * Websearch plugin: engine store and trigger ranking

    A shallow embedding of [src/plugin.cpp] (websearch plugin of the albert
    launcher): the JSON (de)serialisation of the engine list, the store
    operations [setEngines] / [restoreDefaultEngines] / the constructor, the
    item builder, [rankItems] and [fallbacks].

    Conventions of the model
    - a [QString] is a [string] holding the bytes of its UTF-8 form, so
      lengths and positions are exact for ASCII text; case folding and
      whitespace are those of the ASCII range;
    - scores are exact rationals ([Q]) instead of [double];
    - what the host application supplies (the maximum score, percent
      encoding, the UUID generator) is gathered in a [Host] record. *)

From Stdlib Require Import List String Ascii Bool Arith Lia ZArith QArith.
From Stdlib Require Import Sorting.Sorted Sorting.Permutation.
From Stdlib Require Import Structures.OrderedTypeEx.
Import ListNotations.

Local Open Scope nat_scope.
Local Open Scope list_scope.
Local Open Scope string_scope.

(* ------------------------------------------------------------------ *)
(** ** QString operations used by the plugin *)

Module QString.

Definition isEmpty (s : string) : bool :=
  match s with
  | EmptyString => true
  | String _ _ => false
  end.

Definition size (s : string) : nat := String.length s.

(** [QChar::toLower] on the ASCII range: A-Z go to a-z. *)
Definition toLowerChar (c : ascii) : ascii :=
  let n := nat_of_ascii c in
  if ((65 <=? n) && (n <=? 90))%nat then ascii_of_nat (n + 32) else c.

Fixpoint toLower (s : string) : string :=
  match s with
  | EmptyString => EmptyString
  | String c s' => String (toLowerChar c) (toLower s')
  end.

(** [s.left(n)]: the [n] leftmost characters, the whole string when it is
    shorter. *)
Fixpoint left (n : nat) (s : string) : string :=
  match n, s with
  | O, _ => EmptyString
  | S _, EmptyString => EmptyString
  | S n', String c s' => String c (left n' s')
  end.

(** [s.mid(n)]: the string from position [n] on, empty past the end. *)
Fixpoint mid (n : nat) (s : string) : string :=
  match n, s with
  | O, _ => s
  | S _, EmptyString => EmptyString
  | S n', String _ s' => mid n' s'
  end.

(** [s.startsWith(p)] *)
Definition startsWith (s p : string) : bool := String.prefix p s.

(** [QChar::isSpace] on the ASCII range: space and \t \n \v \f \r. *)
Definition isSpace (c : ascii) : bool :=
  let n := nat_of_ascii c in
  ((n =? 32) || ((9 <=? n) && (n <=? 13)))%nat.

Fixpoint trimFront (s : string) : string :=
  match s with
  | EmptyString => EmptyString
  | String c s' => if isSpace c then trimFront s' else s
  end.

Fixpoint trimBack (s : string) : string :=
  match s with
  | EmptyString => EmptyString
  | String c s' =>
      let r := trimBack s' in
      if isSpace c && isEmpty r then EmptyString else String c r
  end.

(** [s.trimmed()]: whitespace removed from the start and the end. *)
Definition trimmed (s : string) : string := trimBack (trimFront s).

(** [s.replace("%s", after)]: every occurrence, scanning left to right. *)
Fixpoint replace_pct_s (after s : string) : string :=
  match s with
  | EmptyString => EmptyString
  | String "%" (String "s" rest) => after ++ replace_pct_s after rest
  | String c s' => String c (replace_pct_s after s')
  end.

(** First and last character tests, used to speak about surrounding
    whitespace. *)
Definition startsWithSpace (s : string) : bool :=
  match s with
  | EmptyString => false
  | String c _ => isSpace c
  end.

Fixpoint endsWithSpace (s : string) : bool :=
  match s with
  | EmptyString => false
  | String c EmptyString => isSpace c
  | String _ s' => endsWithSpace s'
  end.

End QString.

Import QString.

(* ------------------------------------------------------------------ *)
(** ** Data model *)

(** The fields of [SearchEngine] that [plugin.cpp] reads and writes. *)
Record SearchEngine : Type := mkSearchEngine {
  id : string;
  name : string;
  trigger : string;
  icon_path : string;
  url : string;
  fallback : bool
}.

Definition SearchEngine_eq_dec (a b : SearchEngine) : {a = b} + {a <> b}.
Proof.
  decide equality; try apply string_dec; apply bool_dec.
Defined.

(** An action of an item: identifier, text, and the URL its closure opens. *)
Record Action : Type := mkAction {
  action_id : string;
  action_text : string;
  action_openUrl : string
}.

(** What [StandardItem::make] is given, in the order of its arguments; the
    icon factory is represented by the path it captures. *)
Record StandardItem : Type := mkStandardItem {
  item_id : string;
  item_text : string;
  item_subtext : string;
  item_icon : string;
  item_actions : list Action;
  item_input_action_text : string
}.

(** A [RankItem]: an item and the score of its match. *)
Record RankItem : Type := mkRankItem {
  item : StandardItem;
  score : Q
}.

(** What the host application provides. *)
Record Host : Type := mkHost {
  (** the maximum score, to which a full match is scaled *)
  MAX_SCORE : Q;
  (** [albert::percentEncoded] *)
  percentEncoded : string -> string;
  (** the text of the [n]-th UUID that [QUuid::createUuid] hands out,
      already in the [WithoutBraces] format *)
  createUuid : nat -> string
}.

(** [std::sort(first, last, comp)], as the insertion sort the library runs
    on short ranges: an element moves in front of the elements it compares
    less than.  The standard leaves the order of equivalent elements open,
    and on longer ranges the library does reorder them; this model keeps
    them in place.  The results on [setEngines] below therefore use of the
    sort only that its result is sorted and a permutation of its input. *)
Section StdSort.
Context {A : Type} (comp : A -> A -> bool).

Fixpoint insert (x : A) (l : list A) : list A :=
  match l with
  | [] => [x]
  | y :: l' => if comp y x then y :: insert x l' else x :: l
  end.

Fixpoint std_sort (l : list A) : list A :=
  match l with
  | [] => []
  | x :: l' => insert x (std_sort l')
  end.

(** [a] may stand before [b]: [b] does not compare less than [a]. *)
Definition not_after (a b : A) : Prop := comp b a = false.
End StdSort.

(* ------------------------------------------------------------------ *)
(** ** Items and ranking *)

Section Ranking.
Variable host : Host.

(** [buildItem(se, search_term)] *)
Definition buildItem (se : SearchEngine) (search_term : string) : StandardItem :=
  let url := replace_pct_s (percentEncoded host search_term) (url se) in
  {| item_id := id se;
     item_text := name se;
     item_subtext := "Search " ++ name se ++ " for '" ++ search_term ++ "'";
     item_icon := icon_path se;
     item_actions := [ {| action_id := "run";
                          action_text := "Run websearch";
                          action_openUrl := url |} ];
     item_input_action_text := trigger se ++ " " ++ search_term |}.

(** Modelled from the spec: [albert::Matcher] and [albert::Match] belong to
    the host and are not part of the sources.  [Matcher(prefix).match(keyword)]
    follows step 5 of the ranking algorithm: it is a match when [keyword]
    starts with [prefix], with score [len(prefix) / len(keyword)] scaled to
    the maximum score. *)
Definition Matcher_match (prefix keyword : string) : option Q :=
  if startsWith keyword prefix
  then Some (MAX_SCORE host * (Z.of_nat (size prefix) # Pos.of_nat (size keyword)))%Q
  else None.

(** The vector [S] of [rankItems] after its sort: trigger and name,
    shortest first. *)
Definition candidates (e : SearchEngine) : list string :=
  std_sort (fun a b => (String.length a <? String.length b)%nat) [trigger e; name e].

(** The body of the inner loop of [rankItems] for the candidate [s] of
    engine [e]: the rank item it appends when the matcher matches. *)
Definition tryCandidate (query : string) (e : SearchEngine) (s : string)
  : option RankItem :=
  let keyword := toLower s ++ " " in
  let prefix := left (size keyword) (toLower query) in
  match Matcher_match prefix keyword with
  | Some m => Some {| item := buildItem e (mid (size prefix) query); score := m |}
  | None => None
  end.

(** The inner loop of [rankItems] over the candidates [S] of engine [e]:
    the first candidate that matches yields an item, and the loop breaks. *)
Fixpoint rankCandidates (query : string) (e : SearchEngine) (S : list string)
  : list RankItem :=
  match S with
  | [] => []
  | s :: S' =>
      match tryCandidate query e s with
      | Some r => [r]
      | None => rankCandidates query e S'
      end
  end.

(** One iteration of the outer loop. *)
Definition rankEngine (query : string) (e : SearchEngine) : list RankItem :=
  rankCandidates query e (candidates e).

(** [Plugin::rankItems], on the query text and the stored engines. *)
Definition rankItems (query : string) (searchEngines_ : list SearchEngine)
  : list RankItem :=
  flat_map (rankEngine query) searchEngines_.

(** The placeholder of [fallbacks]: the horizontal ellipsis U+2026, here
    the three bytes of its UTF-8 form. *)
Definition ellipsis : string :=
  String (ascii_of_nat 226) (String (ascii_of_nat 128) (String (ascii_of_nat 166) EmptyString)).

(** [Plugin::fallbacks] *)
Definition fallbacks (query : string) (searchEngines_ : list SearchEngine)
  : list StandardItem :=
  if negb (isEmpty query)
  then flat_map (fun e =>
                   if fallback e
                   then [buildItem e (if isEmpty query then ellipsis else query)]
                   else [])
                searchEngines_
  else [].

End Ranking.

(* ------------------------------------------------------------------ *)
(** ** JSON values, as far as the engine list uses them *)

(** The kinds of [QJsonValue::Type]; the engine list holds no numbers, and a
    number is kept as an integer. *)
#[local] Unset Elimination Schemes.
Inductive QJsonValue : Type :=
| JNull
| JBool (b : bool)
| JDouble (d : Z)
| JString (s : string)
| JArray (a : list QJsonValue)
| JObject (o : list (string * QJsonValue))
| JUndefined.
#[local] Set Elimination Schemes.

(** A [QJsonObject]: keys with their values; a key is looked up from the
    front. *)
Definition QJsonObject : Type := list (string * QJsonValue).

(** What [QJsonDocument::fromJson] makes of the bytes of a file.  A file is
    represented by this document: the null document stands for content that
    does not parse, and [toJson] followed by [fromJson] gives the document
    back. *)
Inductive QJsonDocument : Type :=
| DocNull
| DocArray (a : list QJsonValue)
| DocObject (o : QJsonObject).

Module Json.

(** [o.contains(key)] *)
Fixpoint contains (o : QJsonObject) (key : string) : bool :=
  match o with
  | [] => false
  | (k, _) :: o' => if String.eqb k key then true else contains o' key
  end.

(** [o[key]] on a const object: [Undefined] for a missing key. *)
Fixpoint value (o : QJsonObject) (key : string) : QJsonValue :=
  match o with
  | [] => JUndefined
  | (k, v) :: o' => if String.eqb k key then v else value o' key
  end.

(** [o[key] = v] *)
Fixpoint insert (o : QJsonObject) (key : string) (v : QJsonValue) : QJsonObject :=
  match o with
  | [] => [(key, v)]
  | (k, w) :: o' => if String.eqb k key then (k, v) :: o' else (k, w) :: insert o' key v
  end.

(** [v.toString()]: the null string unless [v] is a string. *)
Definition toString (v : QJsonValue) : string :=
  match v with
  | JString s => s
  | _ => EmptyString
  end.

(** [v.toBool(defaultValue)] *)
Definition toBool (v : QJsonValue) (defaultValue : bool) : bool :=
  match v with
  | JBool b => b
  | _ => defaultValue
  end.

(** [v.toObject()]: the empty object unless [v] is an object. *)
Definition toObject (v : QJsonValue) : QJsonObject :=
  match v with
  | JObject o => o
  | _ => []
  end.

(** [doc.array()]: the empty array unless the document is an array. *)
Definition array (doc : QJsonDocument) : list QJsonValue :=
  match doc with
  | DocArray a => a
  | _ => []
  end.

End Json.

Definition CK_ENGINE_ID : string := "id".
Definition CK_ENGINE_GUID : string := "guid".
Definition CK_ENGINE_NAME : string := "name".
Definition CK_ENGINE_URL : string := "url".
Definition CK_ENGINE_TRIGGER : string := "trigger".
Definition CK_ENGINE_ICON : string := "iconPath".
Definition CK_ENGINE_FALLBACK : string := "fallback".

(* ------------------------------------------------------------------ *)
(** ** The engine store *)

(** The object [serializeEngines] writes for one engine. *)
Definition serializeEngine (e : SearchEngine) : QJsonValue :=
  let o := [] : QJsonObject in
  let o := Json.insert o CK_ENGINE_ID (JString (id e)) in
  let o := Json.insert o CK_ENGINE_NAME (JString (name e)) in
  let o := Json.insert o CK_ENGINE_URL (JString (url e)) in
  let o := Json.insert o CK_ENGINE_TRIGGER (JString (trigger e)) in
  let o := Json.insert o CK_ENGINE_ICON (JString (icon_path e)) in
  let o := Json.insert o CK_ENGINE_FALLBACK (JBool (fallback e)) in
  JObject o.

(** [serializeEngines] *)
Definition serializeEngines (engines : list SearchEngine) : QJsonDocument :=
  DocArray (map serializeEngine engines).

Inductive LogEntry : Type :=
| CouldNotWriteToFile
| FailedReadingDefaultEngines.

(** The plugin object together with what it acts on. *)
Record Plugin : Type := mkPlugin {
  (** the member [searchEngines_] *)
  searchEngines_ : list SearchEngine;
  (** [engines.json] in the configuration directory: its content when it
      can be opened for reading *)
  engines_json : option QJsonDocument;
  (** whether that file can be opened for writing *)
  engines_json_writable : bool;
  (** the resource [:engines.json]: its content when it can be opened *)
  resource_engines_json : option QJsonDocument;
  (** the number of UUIDs created so far *)
  uuids_created : nat;
  (** the payloads of the [enginesChanged] signals emitted, latest first *)
  enginesChanged : list (list SearchEngine);
  (** the messages logged as critical, latest first *)
  critical : list LogEntry
}.

Section Store.
Variable host : Host.

(** [QUuid::createUuid().toString(QUuid::WithoutBraces).left(8)], for the
    [n]-th UUID. *)
Definition freshId (n : nat) : string := left 8 (createUuid host n).

(** The body of the loop of [deserializeEngines], for the object [o] when
    [n] UUIDs have been created: the engine, and the number of UUIDs
    created afterwards. *)
Definition deserializeEngine (o : QJsonObject) (n : nat) : SearchEngine * nat :=
  let id0 :=
    if Json.contains o CK_ENGINE_ID then Json.toString (Json.value o CK_ENGINE_ID)
    else if Json.contains o CK_ENGINE_GUID then Json.toString (Json.value o CK_ENGINE_GUID)
    else EmptyString in
  let '(id1, n') := if isEmpty id0 then (freshId n, S n) else (id0, n) in
  ({| id := id1;
      name := Json.toString (Json.value o CK_ENGINE_NAME);
      trigger := trimmed (Json.toString (Json.value o CK_ENGINE_TRIGGER));
      icon_path := Json.toString (Json.value o CK_ENGINE_ICON);
      url := Json.toString (Json.value o CK_ENGINE_URL);
      fallback := Json.toBool (Json.value o CK_ENGINE_FALLBACK) true |}, n').

(** The body of the loop of [restoreDefaultEngines]. *)
Definition defaultEngine (o : QJsonObject) (n : nat) : SearchEngine * nat :=
  ({| id := freshId n;
      name := Json.toString (Json.value o CK_ENGINE_NAME);
      trigger := Json.toString (Json.value o CK_ENGINE_TRIGGER);
      icon_path := Json.toString (Json.value o CK_ENGINE_ICON);
      url := Json.toString (Json.value o CK_ENGINE_URL);
      fallback := Json.toBool (Json.value o CK_ENGINE_FALLBACK) false |}, S n).

(** A loop [for (const auto &v : a) { ...; searchEngines.push_back(e); }]
    with body [f], threading the number of UUIDs created. *)
Fixpoint loadEngines (f : QJsonObject -> nat -> SearchEngine * nat)
  (a : list QJsonValue) (n : nat) : list SearchEngine * nat :=
  match a with
  | [] => ([], n)
  | v :: a' =>
      let '(e, n1) := f (Json.toObject v) n in
      let '(es, n2) := loadEngines f a' n1 in
      (e :: es, n2)
  end.

(** [deserializeEngines], on the document parsed from the bytes. *)
Definition deserializeEngines (json : QJsonDocument) (n : nat)
  : list SearchEngine * nat :=
  loadEngines deserializeEngine (Json.array json) n.

(** [Plugin::engines] *)
Definition engines (p : Plugin) : list SearchEngine := searchEngines_ p.

(** [Plugin::setEngines]: sort by name, store, write the file or log the
    failure, emit [enginesChanged]. *)
Definition setEngines (engines : list SearchEngine) (p : Plugin) : Plugin :=
  let engines := std_sort (fun a b => String.ltb (name a) (name b)) engines in
  {| searchEngines_ := engines;
     engines_json := if engines_json_writable p
                     then Some (serializeEngines engines)
                     else engines_json p;
     engines_json_writable := engines_json_writable p;
     resource_engines_json := resource_engines_json p;
     uuids_created := uuids_created p;
     enginesChanged := engines :: enginesChanged p;
     critical := if engines_json_writable p
                 then critical p
                 else CouldNotWriteToFile :: critical p |}.

Definition set_uuids_created (n : nat) (p : Plugin) : Plugin :=
  {| searchEngines_ := searchEngines_ p;
     engines_json := engines_json p;
     engines_json_writable := engines_json_writable p;
     resource_engines_json := resource_engines_json p;
     uuids_created := n;
     enginesChanged := enginesChanged p;
     critical := critical p |}.

Definition log_critical (m : LogEntry) (p : Plugin) : Plugin :=
  {| searchEngines_ := searchEngines_ p;
     engines_json := engines_json p;
     engines_json_writable := engines_json_writable p;
     resource_engines_json := resource_engines_json p;
     uuids_created := uuids_created p;
     enginesChanged := enginesChanged p;
     critical := m :: critical p |}.

(** [Plugin::restoreDefaultEngines] *)
Definition restoreDefaultEngines (p : Plugin) : Plugin :=
  match resource_engines_json p with
  | Some doc =>
      let '(searchEngines, n) :=
        loadEngines defaultEngine (Json.array doc) (uuids_created p) in
      setEngines searchEngines (set_uuids_created n p)
  | None =>
      setEngines [] (log_critical FailedReadingDefaultEngines p)
  end.

(** The constructor [Plugin::Plugin], run on a plugin object whose members
    are still empty ([p] carries the files).  The two calls of
    [create_directories] before the file is opened are left out. *)
Definition Plugin_ctor (p : Plugin) : Plugin :=
  match engines_json p with
  | Some content =>
      let '(searchEngines, n) := deserializeEngines content (uuids_created p) in
      setEngines searchEngines (set_uuids_created n p)
  | None => restoreDefaultEngines p
  end.

(** [EnginesModel::setData] for the trigger column with [Qt::EditRole]:
    the engine in row [row] gets the trigger [value] and the list goes to
    [setEngines].  [None] stands for a row outside the list, where the
    indexing is undefined. *)
Fixpoint setTrigger (row : nat) (value : string) (l : list SearchEngine)
  : option (list SearchEngine) :=
  match row, l with
  | _, [] => None
  | O, e :: l' =>
      Some ({| id := id e; name := name e; trigger := value;
               icon_path := icon_path e; url := url e;
               fallback := fallback e |} :: l')
  | S row', e :: l' => option_map (cons e) (setTrigger row' value l')
  end.

Definition setData_trigger (row : nat) (value : string) (p : Plugin)
  : option Plugin :=
  option_map (fun engines => setEngines engines p)
             (setTrigger row value (engines p)).

(** The operations that change the stored list. *)
Inductive Mutation : Type :=
| MSetEngines (engines : list SearchEngine)
| MRestoreDefaultEngines.

Definition mutate (m : Mutation) (p : Plugin) : Plugin :=
  match m with
  | MSetEngines l => setEngines l p
  | MRestoreDefaultEngines => restoreDefaultEngines p
  end.

(** The plugin after its constructor and a sequence of mutations. *)
Definition run (ms : list Mutation) (p : Plugin) : Plugin :=
  fold_left (fun q m => mutate m q) ms (Plugin_ctor p).

End Store.

(** Sorted by name: no engine has a name greater than the name of an engine
    after it, under the order of [QString::operator<] (code units compared
    one by one, case-sensitive). *)
Definition name_le (a b : SearchEngine) : Prop := String.leb (name a) (name b) = true.

Definition sorted_by_name (l : list SearchEngine) : Prop := StronglySorted name_le l.

(* ------------------------------------------------------------------ *)
(** ** The settings table *)

(** [EnginesModel::setData] for the fallback column with
    [Qt::CheckStateRole]: the engine in row [row] gets the flag
    [value == Qt::Checked] and the list goes to [setEngines].  [None] stands
    for a row outside the list, where the indexing is undefined. *)
Fixpoint setFallback (row : nat) (checked : bool) (l : list SearchEngine)
  : option (list SearchEngine) :=
  match row, l with
  | _, [] => None
  | O, e :: l' =>
      Some ({| id := id e; name := name e; trigger := trigger e;
               icon_path := icon_path e; url := url e;
               fallback := checked |} :: l')
  | S row', e :: l' => option_map (cons e) (setFallback row' checked l')
  end.

Definition setData_fallback (row : nat) (checked : bool) (p : Plugin)
  : option Plugin :=
  option_map (fun engines => setEngines engines p)
             (setFallback row checked (engines p)).

(** [EnginesModel::rowCount] *)
Definition rowCount (p : Plugin) : nat := List.length (engines p).

(** The engine [e] with another trigger, and with another fallback flag. *)
Definition withTrigger (value : string) (e : SearchEngine) : SearchEngine :=
  {| id := id e; name := name e; trigger := value;
     icon_path := icon_path e; url := url e; fallback := fallback e |}.

Definition withFallback (checked : bool) (e : SearchEngine) : SearchEngine :=
  {| id := id e; name := name e; trigger := trigger e;
     icon_path := icon_path e; url := url e; fallback := checked |}.

(** The list [l] with [f] applied to the engine in row [row]; [None] for a
    row outside the list. *)
Fixpoint updateRow (f : SearchEngine -> SearchEngine) (row : nat)
  (l : list SearchEngine) : option (list SearchEngine) :=
  match row, l with
  | _, [] => None
  | O, e :: l' => Some (f e :: l')
  | S row', e :: l' => option_map (cons e) (updateRow f row' l')
  end.

(** What the round trip through the file asks of an engine: an id, and a
    trigger without whitespace at either end. *)
Definition storable (e : SearchEngine) : Prop :=
  id e <> EmptyString
  /\ startsWithSpace (trigger e) = false
  /\ endsWithSpace (trigger e) = false.

(** What an operation that ends in [setEngines] does to a state [p], apart
    from the stored list: one signal more, carrying the stored list; the
    file written with the serialised stored list when it can be written,
    and left alone when it cannot. *)
Definition in_step (p p' : Plugin) : Prop :=
  enginesChanged p' = searchEngines_ p' :: enginesChanged p
  /\ engines_json_writable p' = engines_json_writable p
  /\ engines_json p' = (if engines_json_writable p
                        then Some (serializeEngines (searchEngines_ p'))
                        else engines_json p).

(** Observers and file in step with the store, for a state [p] reached
    from [p0]. *)
Definition synced (p0 p : Plugin) : Prop :=
  hd_error (enginesChanged p) = Some (searchEngines_ p)
  /\ engines_json_writable p = engines_json_writable p0
  /\ engines_json p = (if engines_json_writable p0
                       then Some (serializeEngines (searchEngines_ p))
                       else engines_json p0).

(** Whether the character [c] occurs in [s]. *)
Fixpoint containsChar (c : ascii) (s : string) : bool :=
  match s with
  | EmptyString => false
  | String d s' => Ascii.eqb d c || containsChar c s'
  end.

(** Whether one of the two candidates of [e] matches the query. *)
Definition engineMatches (host : Host) (query : string) (e : SearchEngine) : bool :=
  match tryCandidate host query e (trigger e), tryCandidate host query e (name e) with
  | None, None => false
  | _, _ => true
  end.

(* ------------------------------------------------------------------ *)
(** ** A host to run the model on *)

Module Rfc3986.

Definition hexDigit (n : nat) : ascii :=
  if (n <? 10)%nat then ascii_of_nat (48 + n) else ascii_of_nat (55 + n).

(** ALPHA / DIGIT / "-" / "." / "_" / "~" *)
Definition unreserved (c : ascii) : bool :=
  let n := nat_of_ascii c in
  (((65 <=? n) && (n <=? 90)) || ((97 <=? n) && (n <=? 122))
   || ((48 <=? n) && (n <=? 57))
   || (n =? 45) || (n =? 46) || (n =? 95) || (n =? 126))%nat.

Fixpoint toPercentEncoding (s : string) : string :=
  match s with
  | EmptyString => EmptyString
  | String c s' =>
      if unreserved c
      then String c (toPercentEncoding s')
      else let n := nat_of_ascii c in
           String "%" (String (hexDigit (n / 16)) (String (hexDigit (n mod 16))
                  (toPercentEncoding s')))
  end.

End Rfc3986.

(** A host with scores in [0, 1], percent encoding after RFC 3986, and
    UUIDs that spell their number. *)
Definition albert : Host :=
  {| MAX_SCORE := 1;
     percentEncoded := Rfc3986.toPercentEncoding;
     createUuid := fun n =>
       String (Rfc3986.hexDigit (n / 16 mod 16)) (String (Rfc3986.hexDigit (n mod 16))
         "3f2a9c-4b1d-4e8a-9c7f-2d5b6a1e0f34") |}.

(* ------------------------------------------------------------------ *)
(** ** Sample engines, records and files *)

Module Samples.

Definition google : SearchEngine :=
  {| id := "a1b2c3d4"; name := "Google"; trigger := "gg"; icon_path := ":google";
     url := "https://www.google.com/search?q=%s"; fallback := true |}.

(** An engine whose name is shorter than its trigger. *)
Definition wiki : SearchEngine :=
  {| id := "0f9e8d7c"; name := "w"; trigger := "wiki"; icon_path := ":default";
     url := "https://en.wikipedia.org/w/index.php?search=%s"; fallback := false |}.

(** An engine without trigger. *)
Definition github : SearchEngine :=
  {| id := "5a6b7c8d"; name := "GitHub"; trigger := ""; icon_path := ":github";
     url := "https://github.com/search?q=%s"; fallback := true |}.

(** An engine whose trigger has a space on either side. *)
Definition youtube : SearchEngine :=
  {| id := "11223344"; name := "Youtube"; trigger := " yt "; icon_path := ":youtube";
     url := "https://www.youtube.com/results?search_query=%s"; fallback := false |}.

(** An engine whose URL has no placeholder. *)
Definition intranet : SearchEngine :=
  {| id := "99aabbcc"; name := "Intranet"; trigger := "in"; icon_path := ":default";
     url := "https://intranet.example.org/search"; fallback := false |}.

(** A record as an old configuration has it: a [guid], no [fallback]. *)
Definition legacy_record : QJsonObject :=
  [ ("guid", JString "c0ffee00"); ("name", JString "Google");
    ("trigger", JString "gg "); ("iconPath", JString ":google");
    ("url", JString "https://www.google.com/search?q=%s") ].

(** A record of the built-in defaults, with a padded trigger. *)
Definition default_record : QJsonObject :=
  [ ("name", JString "Youtube"); ("trigger", JString " yt ");
    ("iconPath", JString ":youtube");
    ("url", JString "https://www.youtube.com/results?search_query=%s") ].

Definition defaults : QJsonDocument := DocArray [JObject default_record].

(** A plugin object before its constructor has run, by the state of the
    configuration file. *)
Definition fresh (file : option QJsonDocument) : Plugin :=
  {| searchEngines_ := [];
     engines_json := file;
     engines_json_writable := true;
     resource_engines_json := Some defaults;
     uuids_created := 0;
     enginesChanged := [];
     critical := [] |}.

End Samples.

(* ------------------------------------------------------------------ *)
(** ** Facts about the string operations *)

Section StringFacts.

Lemma length_append (a b : string) :
  String.length (a ++ b) = String.length a + String.length b.
Proof. induction a as [|c a IH]; simpl; [reflexivity | now rewrite IH]. Qed.


Lemma length_toLower (s : string) : String.length (toLower s) = String.length s.
Proof. induction s as [|c s IH]; simpl; [reflexivity | now rewrite IH]. Qed.


Lemma length_left (n : nat) (s : string) :
  String.length (left n s) = Nat.min n (String.length s).
Proof.
  revert s; induction n as [|n IH]; intros [|c s]; simpl; try reflexivity.
  now rewrite IH.
Qed.




Lemma startsWithSpace_trimFront (s : string) : startsWithSpace (trimFront s) = false.
Proof.
  induction s as [|c s IH]; simpl; [reflexivity|].
  destruct (isSpace c) eqn:E; [exact IH | simpl; exact E].
Qed.

Lemma trimBack_empty_or_head (s : string) :
  trimBack s = EmptyString
  \/ exists c s', s = String c s' /\ trimBack s = String c (trimBack s').
Proof.
  destruct s as [|c s]; simpl; [now left|].
  destruct (isSpace c && isEmpty (trimBack s)); [now left|].
  right; exists c, s; split; reflexivity.
Qed.

Lemma startsWithSpace_trimBack (s : string) :
  startsWithSpace s = false -> startsWithSpace (trimBack s) = false.
Proof.
  intros H; destruct (trimBack_empty_or_head s) as [E | (c & s' & -> & E)];
    rewrite E; [reflexivity | exact H].
Qed.

Lemma endsWithSpace_trimBack (s : string) : endsWithSpace (trimBack s) = false.
Proof.
  induction s as [|c s IH]; simpl; [reflexivity|].
  destruct (isSpace c) eqn:Ec; simpl.
  - destruct (trimBack s) eqn:Et; simpl; [reflexivity | exact IH].
  - destruct (trimBack s) eqn:Et; simpl; [exact Ec | exact IH].
Qed.

(** [trimmed] leaves no whitespace at either end. *)
Lemma trimmed_stripped (s : string) :
  startsWithSpace (trimmed s) = false /\ endsWithSpace (trimmed s) = false.
Proof.
  unfold trimmed; split.
  - apply startsWithSpace_trimBack, startsWithSpace_trimFront.
  - apply endsWithSpace_trimBack.
Qed.

End StringFacts.

(* ------------------------------------------------------------------ *)
(** ** Ranking *)

Section RankingFacts.
Variable host : Host.

Lemma candidates_cases (e : SearchEngine) :
  candidates e =
    if (String.length (name e) <? String.length (trigger e))%nat
    then [name e; trigger e]
    else [trigger e; name e].
Proof.
  unfold candidates; simpl.
  destruct (String.length (name e) <? String.length (trigger e))%nat; reflexivity.
Qed.

Lemma keyword_size (s : string) : size (toLower s ++ " ") = String.length s + 1.
Proof. unfold size; rewrite length_append, length_toLower; reflexivity. Qed.

(** What the loop body yields for a candidate whose keyword starts with the
    truncated query. *)
Lemma tryCandidate_match (q : string) (e : SearchEngine) (s : string) :
  startsWith (toLower s ++ " ") (left (String.length s + 1) (toLower q)) = true ->
  tryCandidate host q e s =
    Some {| item := buildItem host e
                      (mid (String.length (left (String.length s + 1) (toLower q))) q);
            score := (MAX_SCORE host *
                      (Z.of_nat (String.length (left (String.length s + 1) (toLower q)))
                       # Pos.of_nat (String.length s + 1)))%Q |}.
Proof.
  intros H; unfold tryCandidate, Matcher_match.
  rewrite keyword_size, H; reflexivity.
Qed.

Lemma tryCandidate_no_match (q : string) (e : SearchEngine) (s : string) :
  startsWith (toLower s ++ " ") (left (String.length s + 1) (toLower q)) = false ->
  tryCandidate host q e s = None.
Proof.
  intros H; unfold tryCandidate, Matcher_match.
  rewrite keyword_size, H; reflexivity.
Qed.


Lemma full_score (m : Q) (n : nat) :
  0 < n -> (m * (Z.of_nat n # Pos.of_nat n) == m)%Q.
Proof.
  intros Hn; unfold Qeq, Qmult; simpl.
  rewrite Pos2Z.inj_mul.
  replace (Z.pos (Pos.of_nat n)) with (Z.of_nat n).
  - ring.
  - destruct n as [|n]; [lia|].
    rewrite <- (Nat2Pos.id (S n)) at 1 by discriminate.
    apply positive_nat_Z.
Qed.



Lemma rankEngine_at_most_one (q : string) (e : SearchEngine) :
  List.length (rankEngine host q e) <= 1.
Proof.
  unfold rankEngine; rewrite candidates_cases.
  destruct (String.length (name e) <? String.length (trigger e))%nat; simpl;
    repeat match goal with
           | |- context [tryCandidate ?h ?q ?e ?s] =>
               destruct (tryCandidate h q e s); simpl
           end; lia.
Qed.

Lemma rankItems_length (q : string) (engines : list SearchEngine) :
  List.length (rankItems host q engines) <= List.length engines.
Proof.
  unfold rankItems; induction engines as [|e l IH]; simpl; [lia|].
  rewrite length_app.
  pose proof (rankEngine_at_most_one q e); lia.
Qed.

(** C2: the two candidates of an engine are tested shortest first and the
    loop stops at the first that matches, so an engine contributes at most
    one match; when trigger and name both match, the match reported is the
    one computed from a candidate that is no longer than the other. *)
Theorem rankEngine_shortest_first :
  (forall (q : string) (e : SearchEngine),
      exists s1 s2 : string,
        candidates e = [s1; s2]
        /\ Permutation [s1; s2] [trigger e; name e]
        /\ String.length s1 <= String.length s2
        /\ rankEngine host q e =
             match tryCandidate host q e s1 with
             | Some r => [r]
             | None => match tryCandidate host q e s2 with
                       | Some r => [r]
                       | None => []
                       end
             end)
  /\
  (forall (q : string) (engines : list SearchEngine),
      rankItems host q engines = flat_map (rankEngine host q) engines
      /\ (forall e, List.length (rankEngine host q e) <= 1)
      /\ List.length (rankItems host q engines) <= List.length engines)
  /\
  (forall (q : string) (e : SearchEngine) (rt rn : RankItem),
      tryCandidate host q e (trigger e) = Some rt ->
      tryCandidate host q e (name e) = Some rn ->
      exists (s : string) (r : RankItem),
        In s [trigger e; name e]
        /\ String.length s <= String.length (trigger e)
        /\ String.length s <= String.length (name e)
        /\ tryCandidate host q e s = Some r
        /\ rankEngine host q e = [r]).
Proof.
  split; [|split].
  - intros q e; unfold rankEngine; rewrite candidates_cases.
    destruct (String.length (name e) <? String.length (trigger e))%nat eqn:Hlt.
    + apply Nat.ltb_lt in Hlt.
      exists (name e), (trigger e); repeat split; try reflexivity; try lia.
      apply perm_swap.
    + apply Nat.ltb_ge in Hlt.
      exists (trigger e), (name e); repeat split; try reflexivity; try lia.
  - intros q engines; split; [reflexivity | split].
    + intros e; apply rankEngine_at_most_one.
    + apply rankItems_length.
  - intros q e rt rn Ht Hn; unfold rankEngine; rewrite candidates_cases.
    destruct (String.length (name e) <? String.length (trigger e))%nat eqn:Hlt.
    + apply Nat.ltb_lt in Hlt.
      exists (name e), rn; simpl; rewrite Hn.
      repeat split; auto; lia.
    + apply Nat.ltb_ge in Hlt.
      exists (trigger e), rt; simpl; rewrite Ht.
      repeat split; auto; lia.
Qed.

(** With candidates of equal length the order of the test does not show:
    both yield the same rank item when both match. *)
Lemma tryCandidate_same_length (q : string) (e : SearchEngine) (s1 s2 : string)
      (r1 r2 : RankItem) :
  String.length s1 = String.length s2 ->
  tryCandidate host q e s1 = Some r1 ->
  tryCandidate host q e s2 = Some r2 ->
  r1 = r2.
Proof.
  unfold tryCandidate, Matcher_match; rewrite !keyword_size; intros ->.
  destruct (startsWith (toLower s1 ++ " ") _); [|discriminate].
  destruct (startsWith (toLower s2 ++ " ") _); [|discriminate].
  intros H1 H2; injection H1 as <-; injection H2 as <-; reflexivity.
Qed.

Lemma Zpos_of_nat_succ (n : nat) : Z.pos (Pos.of_nat (n + 1)) = Z.of_nat (n + 1).
Proof.
  rewrite <- (Nat2Pos.id (n + 1)) at 2 by lia.
  symmetry; apply positive_nat_Z.
Qed.


Lemma candidates_empty_trigger (e : SearchEngine) :
  trigger e = EmptyString -> candidates e = [EmptyString; name e].
Proof.
  intros H; rewrite candidates_cases, H; reflexivity.
Qed.

(** C6 (as amended): an empty trigger is not excluded.  The candidate list
    of an engine with an empty trigger is still trigger and name, the empty
    trigger first; it is tested with the lone space as keyword against the
    first character of the lowercased query, and when the matcher reports a
    match, that match, with the rest of the query as search term, is the
    result of the engine and the name is not tested.  Only otherwise is the
    name tested. *)
Theorem rankEngine_empty_trigger :
  forall (q : string) (e : SearchEngine),
    trigger e = EmptyString ->
    candidates e = [EmptyString; name e]
    /\ tryCandidate host q e EmptyString =
         match Matcher_match host (left 1 (toLower q)) " " with
         | Some m =>
             Some {| item := buildItem host e (mid (String.length (left 1 (toLower q))) q);
                     score := m |}
         | None => None
         end
    /\ rankEngine host q e =
         match tryCandidate host q e EmptyString with
         | Some r => [r]
         | None => rankCandidates host q e [name e]
         end.
Proof.
  intros q e H; split; [|split].
  - apply candidates_empty_trigger, H.
  - reflexivity.
  - unfold rankEngine; rewrite (candidates_empty_trigger e H); reflexivity.
Qed.

(** C7 (as amended): [fallbacks] gives nothing for the empty query; for any
    other query it gives one item per engine marked as fallback, in the
    order of the store, built with the query itself as search term. *)
Theorem fallbacks_spec :
  forall (q : string) (engines : list SearchEngine),
    fallbacks host q engines =
      if isEmpty q
      then []
      else map (fun e => buildItem host e q) (filter fallback engines).
Proof.
  intros q engines; unfold fallbacks.
  destruct q as [|c q]; simpl; [reflexivity|].
  induction engines as [|e l IH]; simpl; [reflexivity|].
  rewrite IH; destruct (fallback e); reflexivity.
Qed.

End RankingFacts.

(* ------------------------------------------------------------------ *)
(** ** Sorting *)

Section StdSortFacts.
Context {A : Type} (comp : A -> A -> bool).

Hypothesis comp_asym : forall a b, comp a b = true -> comp b a = false.
Hypothesis not_after_trans :
  forall a b c, not_after comp a b -> not_after comp b c -> not_after comp a c.

Lemma insert_perm (x : A) (l : list A) : Permutation (insert comp x l) (x :: l).
Proof.
  induction l as [|y l IH]; simpl; [apply Permutation_refl|].
  destruct (comp y x); [|apply Permutation_refl].
  eapply perm_trans; [apply perm_skip, IH | apply perm_swap].
Qed.

Lemma std_sort_perm (l : list A) : Permutation (std_sort comp l) l.
Proof.
  induction l as [|x l IH]; simpl; [constructor|].
  eapply perm_trans; [apply insert_perm | apply perm_skip, IH].
Qed.

Lemma insert_sorted (x : A) (l : list A) :
  StronglySorted (not_after comp) l -> StronglySorted (not_after comp) (insert comp x l).
Proof.
  induction 1 as [|y l Hs IH Hy]; simpl.
  - constructor; constructor.
  - destruct (comp y x) eqn:E.
    + constructor; [exact IH|].
      apply (Permutation_Forall (Permutation_sym (insert_perm x l))).
      constructor; [apply comp_asym, E | exact Hy].
    + constructor; [constructor; assumption|].
      constructor; [exact E|].
      eapply Forall_impl; [|exact Hy].
      intros z Hz; apply (not_after_trans x y z E Hz).
Qed.

Lemma std_sort_sorted (l : list A) : StronglySorted (not_after comp) (std_sort comp l).
Proof.
  induction l as [|x l IH]; simpl; [constructor | apply insert_sorted, IH].
Qed.

End StdSortFacts.

Section NameOrder.

Lemma ltb_lts (a b : string) : String.ltb a b = true <-> String_as_OT.lt a b.
Proof.
  unfold String.ltb; rewrite <- String_as_OT.cmp_lt; unfold String_as_OT.cmp.
  destruct (String.compare a b); split; congruence.
Qed.

Lemma ltb_asym (a b : string) : String.ltb a b = true -> String.ltb b a = false.
Proof.
  unfold String.ltb; rewrite (String.compare_antisym b a).
  destruct (String.compare a b); simpl; congruence.
Qed.

Lemma ltb_false_leb (a b : string) : String.ltb b a = false <-> String.leb a b = true.
Proof.
  unfold String.ltb, String.leb; rewrite (String.compare_antisym b a).
  destruct (String.compare a b); simpl; split; congruence.
Qed.

Lemma leb_trans (a b c : string) :
  String.leb a b = true -> String.leb b c = true -> String.leb a c = true.
Proof.
  rewrite <- !ltb_false_leb; intros Hab Hbc.
  destruct (String.ltb c a) eqn:Hca; [|reflexivity].
  apply ltb_lts in Hca.
  destruct (String.compare a b) eqn:Hc.
  - apply String.compare_eq_iff in Hc; subst b.
    apply ltb_lts in Hca; congruence.
  - assert (Hlt : String_as_OT.lt a b)
      by (apply String_as_OT.cmp_lt; exact Hc).
    pose proof (String_as_OT.lt_trans _ _ _ Hca Hlt) as Hcb.
    apply ltb_lts in Hcb; congruence.
  - unfold String.ltb in Hab; rewrite (String.compare_antisym b a), Hc in Hab.
    discriminate.
Qed.

End NameOrder.

(* ------------------------------------------------------------------ *)
(** ** The engine store *)

Section StoreFacts.
Variable host : Host.

Lemma value_missing (o : QJsonObject) (key : string) :
  Json.contains o key = false -> Json.value o key = JUndefined.
Proof.
  induction o as [|[k v] o IH]; simpl; [reflexivity|].
  destruct (String.eqb k key); [discriminate | exact IH].
Qed.

(** The engines a loading loop returns are, record by record, what its
    body makes of the records. *)
Lemma loadEngines_Forall2 (f : QJsonObject -> nat -> SearchEngine * nat)
      (a : list QJsonValue) (n : nat) :
  Forall2 (fun v e => exists k, e = fst (f (Json.toObject v) k))
          a (fst (loadEngines f a n)).
Proof.
  revert n; induction a as [|v a IH]; intros n; simpl; [constructor|].
  destruct (f (Json.toObject v) n) as [e n1] eqn:Ef.
  specialize (IH n1); destruct (loadEngines f a n1) as [es n2]; simpl in *.
  constructor; [exists n; rewrite Ef; reflexivity | exact IH].
Qed.

Lemma StronglySorted_weaken {A : Type} (R R' : A -> A -> Prop) (l : list A) :
  (forall a b, R a b -> R' a b) -> StronglySorted R l -> StronglySorted R' l.
Proof.
  intros HR; induction 1 as [|x l Hs IH Hx]; constructor; [exact IH|].
  eapply Forall_impl; [|exact Hx]; intros y; apply HR.
Qed.

Lemma std_sort_by_name (l : list SearchEngine) :
  sorted_by_name (std_sort (fun a b => String.ltb (name a) (name b)) l).
Proof.
  apply (StronglySorted_weaken
           (not_after (fun a b => String.ltb (name a) (name b)))).
  - intros a b; unfold not_after, name_le; apply ltb_false_leb.
  - apply std_sort_sorted.
    + intros a b; apply ltb_asym.
    + intros a b c; unfold not_after; rewrite !ltb_false_leb; apply leb_trans.
Qed.

Lemma setEngines_sorted (l : list SearchEngine) (p : Plugin) :
  sorted_by_name (searchEngines_ (setEngines l p)).
Proof. apply std_sort_by_name. Qed.

Lemma restoreDefaultEngines_sorted (p : Plugin) :
  sorted_by_name (searchEngines_ (restoreDefaultEngines host p)).
Proof.
  unfold restoreDefaultEngines.
  destruct (resource_engines_json p) as [doc|]; [|apply setEngines_sorted].
  destruct (loadEngines _ _ _) as [l n]; apply setEngines_sorted.
Qed.

Lemma Plugin_ctor_sorted (p : Plugin) :
  sorted_by_name (searchEngines_ (Plugin_ctor host p)).
Proof.
  unfold Plugin_ctor.
  destruct (engines_json p) as [content|]; [|apply restoreDefaultEngines_sorted].
  destruct (deserializeEngines _ _ _) as [l n]; apply setEngines_sorted.
Qed.

Lemma mutate_sorted (m : Mutation) (p : Plugin) :
  sorted_by_name (searchEngines_ (mutate host m p)).
Proof.
  destruct m; unfold mutate; [apply setEngines_sorted | apply restoreDefaultEngines_sorted].
Qed.

Lemma fold_mutate_sorted (ms : list Mutation) (p : Plugin) :
  sorted_by_name (searchEngines_ p) ->
  sorted_by_name (searchEngines_ (fold_left (fun q m => mutate host m q) ms p)).
Proof.
  revert p; induction ms as [|m ms IH]; intros p Hp; simpl; [exact Hp|].
  apply IH; apply mutate_sorted.
Qed.

(** C4: after [setEngines] the stored list, which is the list [engines()]
    returns, the list written to the file when it can be written, and the
    payload of the signal, is sorted by name under the case-sensitive code
    unit order; and the stored list is sorted after the constructor and
    after every mutation that follows. *)
Theorem setEngines_sorted_by_name :
  forall (l : list SearchEngine) (p : Plugin),
    let p' := setEngines l p in
    sorted_by_name (engines p')
    /\ engines p' = searchEngines_ p'
    /\ enginesChanged p' = searchEngines_ p' :: enginesChanged p
    /\ engines_json p' = (if engines_json_writable p
                          then Some (serializeEngines (searchEngines_ p'))
                          else engines_json p)
    /\ (forall m q, sorted_by_name (searchEngines_ (mutate host m q)))
    /\ (forall ms q, sorted_by_name (searchEngines_ (run host ms q))).
Proof.
  intros l p p'; repeat split.
  - apply setEngines_sorted.
  - intros m q; apply mutate_sorted.
  - intros ms q; unfold run; apply fold_mutate_sorted, Plugin_ctor_sorted.
Qed.

Lemma setEngines_stores_sort (l : list SearchEngine) (p : Plugin) :
  searchEngines_ (setEngines l p)
  = std_sort (fun a b => String.ltb (name a) (name b)) l.
Proof. reflexivity. Qed.

Lemma setEngines_perm (l : list SearchEngine) (p : Plugin) :
  Permutation (searchEngines_ (setEngines l p)) l.
Proof. rewrite setEngines_stores_sort; apply std_sort_perm. Qed.

(** C10: [setEngines] stores a permutation of the list it is given: the
    engines are reordered, and no field of any engine is changed, so the
    stored list holds the same engine records, each as often as the list
    given. *)
Theorem setEngines_permutation :
  forall (l : list SearchEngine) (p : Plugin),
    Permutation (searchEngines_ (setEngines l p)) l
    /\ (forall e : SearchEngine,
          count_occ SearchEngine_eq_dec (searchEngines_ (setEngines l p)) e
          = count_occ SearchEngine_eq_dec l e)
    /\ List.length (searchEngines_ (setEngines l p)) = List.length l.
Proof.
  intros l p; pose proof (setEngines_perm l p) as H; split; [exact H | split].
  - intros e; apply Permutation_count_occ, H.
  - apply Permutation_length, H.
Qed.

Lemma restoreDefaultEngines_permutation (p : Plugin) (doc : QJsonDocument) :
  resource_engines_json p = Some doc ->
  Permutation (searchEngines_ (restoreDefaultEngines host p))
              (fst (loadEngines (defaultEngine host) (Json.array doc) (uuids_created p))).
Proof.
  intros H; unfold restoreDefaultEngines; rewrite H.
  destruct (loadEngines _ _ _) as [l n]; apply setEngines_perm.
Qed.

(** Reading back what [serializeEngines] wrote: an engine with an id comes
    back as it was, up to the trimming of its trigger, and no UUID is
    created. *)
Lemma deserialize_serializeEngine (e : SearchEngine) (n : nat) :
  id e <> EmptyString ->
  deserializeEngine host (Json.toObject (serializeEngine e)) n
  = ({| id := id e; name := name e; trigger := trimmed (trigger e);
        icon_path := icon_path e; url := url e; fallback := fallback e |}, n).
Proof.
  destruct e as [i nm t ic u f]; cbn; intros H.
  destruct i; [congruence | reflexivity].
Qed.

Lemma deserialize_serializeEngines (l : list SearchEngine) (n : nat) :
  Forall (fun e => id e <> EmptyString) l ->
  deserializeEngines host (serializeEngines l) n
  = (map (fun e => {| id := id e; name := name e; trigger := trimmed (trigger e);
                      icon_path := icon_path e; url := url e;
                      fallback := fallback e |}) l, n).
Proof.
  unfold deserializeEngines, serializeEngines; cbn [Json.array].
  induction 1 as [|e l He _ IH]; [reflexivity|].
  cbn [map loadEngines]; rewrite (deserialize_serializeEngine e n He), IH; reflexivity.
Qed.

(** C3: a record without the [fallback] key gives an engine with
    [fallback = true] when it is deserialized from the user configuration,
    and an engine with [fallback = false] when it is loaded from the
    built-in defaults. *)
Theorem fallback_default_asymmetric :
  forall (o : QJsonObject) (n : nat),
    Json.contains o CK_ENGINE_FALLBACK = false ->
    fallback (fst (deserializeEngine host o n)) = true
    /\ fallback (fst (defaultEngine host o n)) = false.
Proof.
  intros o n H; unfold deserializeEngine, defaultEngine.
  rewrite (value_missing o CK_ENGINE_FALLBACK H).
  split; [|reflexivity].
  match goal with |- context [if ?c then _ else _] => destruct c end; reflexivity.
Qed.

(** C5: the id of a deserialized record.  The value of the [id] key is
    adopted when the record has that key, otherwise the value of the legacy
    [guid] key when it has that one; an adopted id that is absent or empty
    is replaced by a freshly created one. *)
Theorem deserializeEngine_id :
  forall (o : QJsonObject) (n : nat),
    let e := fst (deserializeEngine host o n) in
    let n' := snd (deserializeEngine host o n) in
    exists adopted : string,
      (Json.contains o CK_ENGINE_ID = true ->
       adopted = Json.toString (Json.value o CK_ENGINE_ID))
      /\ (Json.contains o CK_ENGINE_ID = false ->
          Json.contains o CK_ENGINE_GUID = true ->
          adopted = Json.toString (Json.value o CK_ENGINE_GUID))
      /\ (Json.contains o CK_ENGINE_ID = false ->
          Json.contains o CK_ENGINE_GUID = false ->
          adopted = EmptyString)
      /\ (adopted <> EmptyString -> id e = adopted /\ n' = n)
      /\ (adopted = EmptyString -> id e = freshId host n /\ n' = S n).
Proof.
  intros o n e n'; subst e n'; unfold deserializeEngine.
  set (adopted :=
         if Json.contains o CK_ENGINE_ID
         then Json.toString (Json.value o CK_ENGINE_ID)
         else if Json.contains o CK_ENGINE_GUID
              then Json.toString (Json.value o CK_ENGINE_GUID)
              else EmptyString).
  exists adopted; split; [|split; [|split; [|split]]].
  - intros H; unfold adopted; rewrite H; reflexivity.
  - intros H1 H2; unfold adopted; rewrite H1, H2; reflexivity.
  - intros H1 H2; unfold adopted; rewrite H1, H2; reflexivity.
  - intros H; destruct adopted; [congruence | split; reflexivity].
  - intros H; rewrite H; split; reflexivity.
Qed.

(** C8 (as amended): the constructor reads the engine list from the
    configuration file.  When the file cannot be opened for reading it
    fails over to [restoreDefaultEngines], which stores the engines of the
    built-in defaults.  When the file opens, what [deserializeEngines]
    makes of its content is stored; for content that is no JSON array this
    is the empty list, without failover. *)
Theorem Plugin_ctor_failover :
  forall p : Plugin,
    (engines_json p = None ->
     Plugin_ctor host p = restoreDefaultEngines host p)
    /\ (forall content : QJsonDocument,
           engines_json p = Some content ->
           Plugin_ctor host p =
             setEngines (fst (deserializeEngines host content (uuids_created p)))
                        (set_uuids_created
                           (snd (deserializeEngines host content (uuids_created p))) p))
    /\ (engines_json p = Some DocNull ->
        searchEngines_ (Plugin_ctor host p) = [])
    /\ (forall doc : QJsonDocument,
           resource_engines_json p = Some doc ->
           Permutation
             (searchEngines_ (restoreDefaultEngines host p))
             (fst (loadEngines (defaultEngine host) (Json.array doc) (uuids_created p)))).
Proof.
  intros p; split; [|split; [|split]].
  - intros H; unfold Plugin_ctor; rewrite H; reflexivity.
  - intros content H; unfold Plugin_ctor; rewrite H.
    destruct (deserializeEngines host content (uuids_created p)); reflexivity.
  - intros H; unfold Plugin_ctor; rewrite H; reflexivity.
  - intros doc H; apply restoreDefaultEngines_permutation, H.
Qed.

Lemma deserializeEngine_trigger (o : QJsonObject) (n : nat) :
  trigger (fst (deserializeEngine host o n))
  = trimmed (Json.toString (Json.value o CK_ENGINE_TRIGGER)).
Proof.
  unfold deserializeEngine.
  match goal with |- context [if ?c then _ else _] => destruct c end; reflexivity.
Qed.


End StoreFacts.

(* ------------------------------------------------------------------ *)
(** ** The results at concrete inputs *)

Section Instances.
Import Samples.

Example rank_gg_banana :
  rankItems albert "gg banana" [google]
  = [ {| item := buildItem albert google "banana"; score := (1 * (3 # 3))%Q |} ].
Proof. reflexivity. Qed.

Example rank_g :
  rankItems albert "g" [google]
  = [ {| item := buildItem albert google ""; score := (1 * (1 # 3))%Q |} ].
Proof. reflexivity. Qed.

Example rank_name_prefix :
  rankItems albert "Goo" [google]
  = [ {| item := buildItem albert google ""; score := (1 * (3 # 7))%Q |} ].
Proof. reflexivity. Qed.

Example deserialize_legacy_record :
  deserializeEngine albert legacy_record 0
  = ({| id := "c0ffee00"; name := "Google"; trigger := "gg"; icon_path := ":google";
        url := "https://www.google.com/search?q=%s"; fallback := true |}, 0).
Proof. reflexivity. Qed.

Example deserialize_without_id :
  deserializeEngine albert default_record 7
  = ({| id := "073f2a9c"; name := "Youtube"; trigger := "yt"; icon_path := ":youtube";
        url := "https://www.youtube.com/results?search_query=%s"; fallback := true |}, 8).
Proof. reflexivity. Qed.

Example deserialize_empty_id_ignores_guid :
  id (fst (deserializeEngine albert (("id", JString "") :: legacy_record) 7)) = "073f2a9c".
Proof. reflexivity. Qed.

Example setEngines_sorts :
  searchEngines_ (setEngines [youtube; wiki; google; github] (fresh None))
  = [github; google; youtube; wiki].
Proof. reflexivity. Qed.



(** [rankEngine_shortest_first] at [wiki] and the query "w", which both
    candidates match. *)
Lemma rankEngine_shortest_first_witness :
  exists rt rn : RankItem,
    tryCandidate albert "w" wiki (trigger wiki) = Some rt
    /\ tryCandidate albert "w" wiki (name wiki) = Some rn
    /\ exists (s : string) (r : RankItem),
         In s [trigger wiki; name wiki]
         /\ String.length s <= String.length (trigger wiki)
         /\ String.length s <= String.length (name wiki)
         /\ tryCandidate albert "w" wiki s = Some r
         /\ rankEngine albert "w" wiki = [r].
Proof.
  exists {| item := buildItem albert wiki ""; score := (1 * (1 # 5))%Q |},
         {| item := buildItem albert wiki ""; score := (1 * (1 # 2))%Q |}.
  split; [reflexivity|].
  split; [reflexivity|].
  apply (proj2 (proj2 (rankEngine_shortest_first albert)) "w" wiki
               {| item := buildItem albert wiki ""; score := (1 * (1 # 5))%Q |}
               {| item := buildItem albert wiki ""; score := (1 * (1 # 2))%Q |});
    reflexivity.
Defined.

(** [rankEngine_empty_trigger] at [github] and a query that starts with a
    space. *)
Lemma rankEngine_empty_trigger_witness :
  trigger github = EmptyString
  /\ candidates github = [EmptyString; name github]
  /\ rankEngine albert " x" github
     = [ {| item := buildItem albert github "x"; score := (1 * (1 # 1))%Q |} ].
Proof.
  split; [reflexivity|].
  destruct (rankEngine_empty_trigger albert " x" github eq_refl) as (Hc & _ & Hr).
  split; [exact Hc | exact Hr].
Defined.

(** C6 as stated fails: with the candidates built from the name only,
    [github] would not match the query " x"; the loop of [rankItems] does
    yield a match, through the empty trigger. *)
Lemma empty_trigger_is_tested :
  trigger github = EmptyString
  /\ candidates github = [EmptyString; name github]
  /\ rankCandidates albert " x" github [name github] = []
  /\ rankEngine albert " x" github
     = [ {| item := buildItem albert github "x"; score := (1 * (1 # 1))%Q |} ]
  /\ rankEngine albert " x" github <> rankCandidates albert " x" github [name github].
Proof.
  repeat (split; [reflexivity|]).
  discriminate.
Qed.

(** C7 as stated fails: for the empty query [fallbacks] returns no item,
    not an item built with the placeholder. *)
Lemma fallbacks_empty_query :
  fallback google = true
  /\ fallbacks albert "" [google] = []
  /\ fallbacks albert "" [google]
     <> map (fun e => buildItem albert e ellipsis) (filter fallback [google]).
Proof.
  split; [reflexivity|].
  split; [reflexivity|].
  discriminate.
Qed.

(** [fallback_default_asymmetric] at a record without the key. *)
Lemma fallback_default_asymmetric_witness :
  Json.contains default_record CK_ENGINE_FALLBACK = false
  /\ fallback (fst (deserializeEngine albert default_record 0)) = true
  /\ fallback (fst (defaultEngine albert default_record 0)) = false.
Proof.
  split; [reflexivity|].
  apply (fallback_default_asymmetric albert default_record 0); reflexivity.
Defined.

(** [Plugin_ctor_failover] where the file is absent, and where its content
    does not parse. *)
Lemma Plugin_ctor_failover_witness :
  (engines_json (fresh None) = None
   /\ Plugin_ctor albert (fresh None) = restoreDefaultEngines albert (fresh None))
  /\ (engines_json (fresh (Some DocNull)) = Some DocNull
      /\ searchEngines_ (Plugin_ctor albert (fresh (Some DocNull))) = []).
Proof.
  split; (split; [reflexivity|]).
  - apply (proj1 (Plugin_ctor_failover albert (fresh None))); reflexivity.
  - apply (proj1 (proj2 (proj2 (Plugin_ctor_failover albert (fresh (Some DocNull))))));
      reflexivity.
Defined.

(** C8 as stated fails for corrupt content: the file opens, nothing
    deserializes, and the store is left empty although the defaults hold
    an engine. *)
Lemma Plugin_ctor_corrupt_file :
  engines_json (fresh (Some DocNull)) = Some DocNull
  /\ searchEngines_ (Plugin_ctor albert (fresh (Some DocNull))) = []
  /\ searchEngines_ (restoreDefaultEngines albert (fresh (Some DocNull)))
     = [ {| id := "003f2a9c"; name := "Youtube"; trigger := " yt ";
            icon_path := ":youtube";
            url := "https://www.youtube.com/results?search_query=%s";
            fallback := false |} ]
  /\ Plugin_ctor albert (fresh (Some DocNull))
     <> restoreDefaultEngines albert (fresh (Some DocNull)).
Proof.
  split; [reflexivity|].
  split; [reflexivity|].
  split; [reflexivity|].
  discriminate.
Qed.


End Instances.

(* ------------------------------------------------------------------ *)
(** ** More on strings *)

Section MoreStringFacts.

Lemma toLowerChar_idem (c : ascii) : toLowerChar (toLowerChar c) = toLowerChar c.
Proof.
  destruct c as [[] [] [] [] [] [] [] []]; reflexivity.
Qed.

Lemma toLower_idem (s : string) : toLower (toLower s) = toLower s.
Proof.
  induction s as [|c s IH]; simpl; [reflexivity|].
  now rewrite toLowerChar_idem, IH.
Qed.

Lemma toLower_left (n : nat) (s : string) : toLower (left n s) = left n (toLower s).
Proof.
  revert s; induction n as [|n IH]; intros [|c s]; simpl; try reflexivity.
  now rewrite IH.
Qed.

Lemma toLower_mid (n : nat) (s : string) : toLower (mid n s) = mid n (toLower s).
Proof.
  revert s; induction n as [|n IH]; intros [|c s]; simpl; try reflexivity.
  apply IH.
Qed.



Lemma startsWith_left (n : nat) (s : string) : startsWith s (left n s) = true.
Proof.
  unfold startsWith; revert s; induction n as [|n IH]; intros [|c s]; simpl;
    try reflexivity.
  destruct (ascii_dec c c) as [_|N]; [apply IH | now elim N].
Qed.

Lemma startsWith_same_length (s p : string) :
  startsWith s p = true -> String.length p = String.length s -> p = s.
Proof.
  unfold startsWith; revert s; induction p as [|a p IH]; intros [|b s]; simpl;
    try discriminate; try reflexivity.
  destruct (ascii_dec a b) as [->|]; [|discriminate].
  intros H L; f_equal; apply IH; [exact H | lia].
Qed.

Lemma startsWith_length (s p : string) :
  startsWith s p = true -> String.length p <= String.length s.
Proof.
  unfold startsWith; revert s; induction p as [|a p IH]; intros [|b s]; simpl;
    try discriminate; try lia.
  destruct (ascii_dec a b); [|discriminate].
  intros H; apply IH in H; lia.
Qed.

(** The test of the ranking loop, without the truncation: the keyword starts
    with the truncated text exactly when the text is a prefix of the keyword
    or the keyword is a prefix of the text. *)
Lemma startsWith_truncated (keyword text : string) :
  startsWith keyword (left (String.length keyword) text) = true
  <-> startsWith keyword text = true \/ startsWith text keyword = true.
Proof.
  unfold startsWith; revert text; induction keyword as [|b k IH]; intros [|a t];
    simpl; try (split; auto; fail).
  destruct (ascii_dec a b) as [->|N].
  - destruct (ascii_dec b b) as [_|N]; [apply IH | now elim N].
  - destruct (ascii_dec b a) as [E|_]; [now elim N|].
    split; [discriminate | intros [H|H]; discriminate].
Qed.

Lemma trimFront_fixed (s : string) : startsWithSpace s = false -> trimFront s = s.
Proof. destruct s as [|c s]; simpl; [reflexivity | intros ->; reflexivity]. Qed.

Lemma trimBack_fixed (s : string) : endsWithSpace s = false -> trimBack s = s.
Proof.
  induction s as [|c s IH]; [reflexivity|].
  destruct s as [|d s]; intros H.
  - simpl in *; rewrite H; reflexivity.
  - change (endsWithSpace (String c (String d s))) with (endsWithSpace (String d s)) in H.
    change (trimBack (String c (String d s)))
      with (if isSpace c && isEmpty (trimBack (String d s))
            then EmptyString else String c (trimBack (String d s))).
    rewrite (IH H); simpl; rewrite andb_false_r; reflexivity.
Qed.

(** A string without whitespace at either end is what [trimmed] returns
    for it. *)
Lemma trimmed_fixed (s : string) :
  startsWithSpace s = false -> endsWithSpace s = false -> trimmed s = s.
Proof.
  intros Hs He; unfold trimmed; rewrite (trimFront_fixed s Hs); apply trimBack_fixed, He.
Qed.

Lemma replace_pct_s_no_percent (after s : string) :
  containsChar "%" s = false -> replace_pct_s after s = s.
Proof.
  induction s as [|c s IH]; [reflexivity|].
  cbn [containsChar]; intros H; apply orb_false_elim in H as [Hc Hs].
  specialize (IH Hs); cbn [replace_pct_s].
  destruct c as [[] [] [] [] [] [] [] []]; try (now rewrite IH); discriminate.
Qed.

Lemma replace_pct_s_placeholder (after a b : string) :
  containsChar "%" a = false ->
  replace_pct_s after (a ++ "%s" ++ b) = a ++ after ++ replace_pct_s after b.
Proof.
  induction a as [|c a IH]; [reflexivity|].
  cbn [containsChar]; intros H; apply orb_false_elim in H as [Hc Hs].
  specialize (IH Hs); cbn [append replace_pct_s] in *.
  destruct c as [[] [] [] [] [] [] [] []]; try (now rewrite IH); discriminate.
Qed.

End MoreStringFacts.

(* ------------------------------------------------------------------ *)
(** ** More on ranking and items *)

Section MoreRankingFacts.
Variable host : Host.

Lemma tryCandidate_inv (q : string) (e : SearchEngine) (s : string) (r : RankItem) :
  tryCandidate host q e s = Some r ->
  startsWith (toLower s ++ " ") (left (String.length s + 1) (toLower q)) = true
  /\ r = {| item := buildItem host e
                      (mid (String.length (left (String.length s + 1) (toLower q))) q);
            score := (MAX_SCORE host *
                      (Z.of_nat (String.length (left (String.length s + 1) (toLower q)))
                       # Pos.of_nat (String.length s + 1)))%Q |}.
Proof.
  intros H.
  destruct (startsWith (toLower s ++ " ") (left (String.length s + 1) (toLower q))) eqn:E.
  - rewrite (tryCandidate_match host q e s E) in H; injection H as <-; split; reflexivity.
  - rewrite (tryCandidate_no_match host q e s E) in H; discriminate.
Qed.

Lemma rankCandidates_In (q : string) (e : SearchEngine) (S : list string) (r : RankItem) :
  In r (rankCandidates host q e S) ->
  exists s, In s S /\ tryCandidate host q e s = Some r.
Proof.
  induction S as [|s S IH]; simpl; [tauto|].
  destruct (tryCandidate host q e s) as [r'|] eqn:E.
  - intros [<- | []]; exists s; auto.
  - intros H; destruct (IH H) as (s' & Hs & Hr); exists s'; auto.
Qed.

Lemma candidates_In (e : SearchEngine) (s : string) :
  In s (candidates e) -> In s [trigger e; name e].
Proof.
  rewrite candidates_cases.
  destruct (String.length (name e) <? String.length (trigger e))%nat; simpl; tauto.
Qed.

Lemma rankItems_In (q : string) (l : list SearchEngine) (r : RankItem) :
  In r (rankItems host q l) ->
  exists e s, In e l /\ In s [trigger e; name e] /\ tryCandidate host q e s = Some r.
Proof.
  unfold rankItems; intros H; apply in_flat_map in H as (e & He & Hr).
  apply rankCandidates_In in Hr as (s & Hs & Hr).
  exists e, s; auto using candidates_In.
Qed.

(** X11.  A candidate matches exactly when the lowercased query is a prefix of the
    keyword (the lowercased candidate and a space), or the keyword is a
    prefix of the lowercased query. *)
Theorem candidate_matches_iff :
  forall (q : string) (e : SearchEngine) (s : string),
    (exists r, tryCandidate host q e s = Some r)
    <-> startsWith (toLower s ++ " ") (toLower q) = true
        \/ startsWith (toLower q) (toLower s ++ " ") = true.
Proof.
  intros q e s.
  rewrite <- startsWith_truncated, length_append, length_toLower; simpl String.length.
  split.
  - intros [r H]; apply (tryCandidate_inv q e s r H).
  - intros H; rewrite (tryCandidate_match host q e s H); eauto.
Qed.

Lemma fraction_bounds (a b : nat) :
  a <= b + 1 ->
  (0 <= Z.of_nat a # Pos.of_nat (b + 1))%Q /\ (Z.of_nat a # Pos.of_nat (b + 1) <= 1)%Q.
Proof.
  intros H; unfold Qle; cbn [Qnum Qden]; rewrite Zpos_of_nat_succ; lia.
Qed.

Lemma tryCandidate_score_bounds (q : string) (e : SearchEngine) (s : string)
      (r : RankItem) :
  (0 <= MAX_SCORE host)%Q ->
  tryCandidate host q e s = Some r ->
  (0 <= score r)%Q /\ (score r <= MAX_SCORE host)%Q.
Proof.
  intros Hmax H; apply tryCandidate_inv in H as [_ ->]; cbn [score].
  destruct (fraction_bounds (String.length (left (String.length s + 1) (toLower q)))
                            (String.length s)) as [H0 H1].
  - rewrite length_left; lia.
  - split.
    + apply Qmult_le_0_compat; assumption.
    + rewrite <- (Qmult_1_r (MAX_SCORE host)) at 2.
      rewrite !(Qmult_comm (MAX_SCORE host)).
      apply Qmult_le_compat_r; assumption.
Qed.

(** X15.  With a maximum score that is not negative, every score [rankItems]
    reports lies between 0 and the maximum score. *)
Theorem rankItems_score_bounds :
  forall (q : string) (l : list SearchEngine) (r : RankItem),
    (0 <= MAX_SCORE host)%Q ->
    In r (rankItems host q l) ->
    (0 <= score r)%Q /\ (score r <= MAX_SCORE host)%Q.
Proof.
  intros q l r Hmax H; apply rankItems_In in H as (e & s & _ & _ & H).
  apply (tryCandidate_score_bounds q e s r Hmax H).
Qed.

Lemma scaled_eq_iff (m : Q) (a b : nat) :
  ~ (m == 0)%Q ->
  ((m * (Z.of_nat a # Pos.of_nat (b + 1)) == m)%Q <-> a = b + 1).
Proof.
  intros Hm; split.
  - intros H.
    assert (H1 : (Z.of_nat a # Pos.of_nat (b + 1) == 1)%Q).
    { apply (Qmult_inj_l _ _ m Hm); rewrite H; ring. }
    unfold Qeq in H1; cbn [Qnum Qden] in H1; rewrite Zpos_of_nat_succ in H1; lia.
  - intros ->; apply full_score; lia.
Qed.

(** X16.  A match has the maximum score exactly when the lowercased query starts
    with the whole keyword, that is, when the candidate and the space after
    it have been typed in full (for a maximum score other than 0). *)
Theorem full_score_iff_keyword_typed :
  forall (q : string) (e : SearchEngine) (s : string) (r : RankItem),
    ~ (MAX_SCORE host == 0)%Q ->
    tryCandidate host q e s = Some r ->
    ((score r == MAX_SCORE host)%Q
     <-> startsWith (toLower q) (toLower s ++ " ") = true).
Proof.
  intros q e s r Hmax H; apply tryCandidate_inv in H as [Hm ->]; cbn [score].
  rewrite (scaled_eq_iff _ _ _ Hmax).
  assert (Hk : String.length (toLower s ++ " ") = String.length s + 1)
    by (rewrite length_append, length_toLower; reflexivity).
  split.
  - intros Hlen.
    rewrite <- (startsWith_same_length _ _ Hm) by (rewrite Hk; exact Hlen).
    apply startsWith_left.
  - intros Hq; apply startsWith_length in Hq; rewrite Hk in Hq.
    rewrite length_left; lia.
Qed.


Lemma tryCandidate_case (q q' : string) (e : SearchEngine) (s : string) :
  toLower q = toLower q' ->
  option_map (fun r => (item_id (item r), score r)) (tryCandidate host q e s)
  = option_map (fun r => (item_id (item r), score r)) (tryCandidate host q' e s).
Proof.
  intros H; unfold tryCandidate, Matcher_match; rewrite <- H.
  destruct (startsWith _ _); reflexivity.
Qed.

Lemma rankCandidates_case (q q' : string) (e : SearchEngine) (S : list string) :
  toLower q = toLower q' ->
  map (fun r => (item_id (item r), score r)) (rankCandidates host q e S)
  = map (fun r => (item_id (item r), score r)) (rankCandidates host q' e S).
Proof.
  intros H; induction S as [|s S IH]; [reflexivity|].
  pose proof (tryCandidate_case q q' e s H) as Hs; cbn [rankCandidates].
  destruct (tryCandidate host q e s), (tryCandidate host q' e s); cbn in Hs |- *;
    try discriminate; [injection Hs as -> ->; reflexivity | exact IH].
Qed.

(** X14.  Matching ignores the case of the query: two queries with the same
    lowercase form get matches for the same engines, in the same order and
    with the same scores. *)
Theorem rankItems_case_insensitive :
  forall (q q' : string) (l : list SearchEngine),
    toLower q = toLower q' ->
    map (fun r => (item_id (item r), score r)) (rankItems host q l)
    = map (fun r => (item_id (item r), score r)) (rankItems host q' l).
Proof.
  intros q q' l H; unfold rankItems; induction l as [|e l IH]; [reflexivity|].
  cbn [flat_map]; rewrite !map_app, IH; f_equal.
  apply rankCandidates_case, H.
Qed.

Lemma tryCandidate_item_id (q : string) (e : SearchEngine) (s : string) (r : RankItem) :
  tryCandidate host q e s = Some r -> item_id (item r) = id e.
Proof. intros H; apply tryCandidate_inv in H as [_ ->]; reflexivity. Qed.

(** X12.  The engines that appear in the result are those of which the trigger or
    the name matches; they appear once each, in the order of the store. *)
Theorem rankItems_engines :
  forall (q : string) (l : list SearchEngine),
    map (fun r => item_id (item r)) (rankItems host q l)
    = map id (filter (engineMatches host q) l).
Proof.
  intros q l; unfold rankItems; induction l as [|e l IH]; [reflexivity|].
  cbn [flat_map filter]; rewrite map_app, IH; unfold engineMatches, rankEngine.
  rewrite candidates_cases.
  destruct (String.length (name e) <? String.length (trigger e))%nat;
    cbn [rankCandidates];
    destruct (tryCandidate host q e (trigger e)) as [rt|] eqn:Et;
    destruct (tryCandidate host q e (name e)) as [rn|] eqn:En;
    cbn [map app];
    rewrite ?(tryCandidate_item_id _ _ _ _ Et), ?(tryCandidate_item_id _ _ _ _ En);
    reflexivity.
Qed.



(** X19.  The URL an item opens: the URL of the engine when it holds no percent
    sign, and else, for a single placeholder, the URL with the percent
    encoded search term in the place of [%s]. *)
Theorem buildItem_url :
  (forall (e : SearchEngine) (term : string),
      containsChar "%" (url e) = false ->
      map action_openUrl (item_actions (buildItem host e term)) = [url e])
  /\
  (forall (e : SearchEngine) (term a b : string),
      url e = a ++ "%s" ++ b ->
      containsChar "%" a = false ->
      containsChar "%" b = false ->
      map action_openUrl (item_actions (buildItem host e term))
      = [a ++ percentEncoded host term ++ b]).
Proof.
  split.
  - intros e term H; cbn; rewrite (replace_pct_s_no_percent _ _ H); reflexivity.
  - intros e term a b Hu Ha Hb; cbn.
    rewrite Hu, (replace_pct_s_placeholder _ a b Ha), (replace_pct_s_no_percent _ b Hb).
    reflexivity.
Qed.

End MoreRankingFacts.

(* ------------------------------------------------------------------ *)
(** ** More on the engine store *)

Section SortedUnique.

(** Two sorted lists of strings with the same elements are equal: the order
    of strings has no two different strings that are equivalent. *)
Lemma sorted_strings_unique (s1 s2 : list string) :
  StronglySorted (fun a b => String.leb a b = true) s1 ->
  StronglySorted (fun a b => String.leb a b = true) s2 ->
  Permutation s1 s2 ->
  s1 = s2.
Proof.
  revert s2; induction s1 as [|a s1 IH]; intros s2 H1 H2 HP.
  - symmetry; apply Permutation_nil, HP.
  - destruct s2 as [|b s2];
      [apply Permutation_sym, Permutation_nil in HP; discriminate|].
    apply StronglySorted_inv in H1 as [H1 Ha].
    apply StronglySorted_inv in H2 as [H2 Hb].
    assert (E : a = b).
    { destruct (Permutation_in a HP (or_introl eq_refl)) as [E | Hin]; [now symmetry|].
      destruct (Permutation_in b (Permutation_sym HP) (or_introl eq_refl))
        as [E | Hin']; [exact E|].
      apply String.leb_antisym.
      - apply (proj1 (Forall_forall _ _) Ha b Hin').
      - apply (proj1 (Forall_forall _ _) Hb a Hin). }
    subst b; f_equal; apply IH; try assumption.
    apply (Permutation_cons_inv HP).
Qed.

Lemma sorted_by_name_map (l : list SearchEngine) :
  sorted_by_name l -> StronglySorted (fun a b => String.leb a b = true) (map name l).
Proof.
  induction 1 as [|x l Hs IH Hx]; cbn [map]; constructor; [exact IH|].
  apply Forall_map; exact Hx.
Qed.

(** Sorted lists of the same engines have the same names, row by row. *)
Lemma sorted_perm_names (l1 l2 : list SearchEngine) :
  sorted_by_name l1 -> sorted_by_name l2 -> Permutation l1 l2 ->
  map name l1 = map name l2.
Proof.
  intros H1 H2 HP; apply sorted_strings_unique.
  - apply sorted_by_name_map, H1.
  - apply sorted_by_name_map, H2.
  - apply Permutation_map, HP.
Qed.

Lemma perm_same_names (l1 l2 : list SearchEngine) :
  Permutation l1 l2 -> map name l1 = map name l2 -> NoDup (map name l1) ->
  l1 = l2.
Proof.
  revert l2; induction l1 as [|x l1 IH]; intros l2 HP Hn Hd.
  - symmetry; apply Permutation_nil, HP.
  - destruct l2 as [|y l2]; [discriminate|].
    cbn [map] in Hn, Hd; injection Hn as Hx Hl.
    apply NoDup_cons_iff in Hd as [Hnot Hd].
    assert (E : x = y).
    { destruct (Permutation_in x HP (or_introl eq_refl)) as [E | Hin]; [now symmetry|].
      exfalso; apply Hnot; rewrite Hl; apply in_map, Hin. }
    subst y; f_equal; apply IH; try assumption.
    apply (Permutation_cons_inv HP).
Qed.

(** With names that are pairwise distinct, a sorted list of given engines is
    unique: whatever a sort does with equivalent elements does not show. *)
Lemma sorted_perm_unique (l1 l2 : list SearchEngine) :
  sorted_by_name l1 -> sorted_by_name l2 -> Permutation l1 l2 ->
  NoDup (map name l1) ->
  l1 = l2.
Proof.
  intros H1 H2 HP Hd; apply perm_same_names; try assumption.
  apply sorted_perm_names; assumption.
Qed.

End SortedUnique.

Section MoreStoreFacts.
Variable host : Host.

(** What [setEngines] stores for a list that is sorted already: the same
    names row by row, and, when the names are pairwise distinct, the list
    itself.  Only sortedness and permutation of the sort are used. *)
Lemma setEngines_of_sorted (l : list SearchEngine) (p : Plugin) :
  sorted_by_name l ->
  map name (searchEngines_ (setEngines l p)) = map name l
  /\ (NoDup (map name l) -> searchEngines_ (setEngines l p) = l).
Proof.
  intros Hs; split.
  - apply sorted_perm_names; [apply setEngines_sorted | exact Hs | apply setEngines_perm].
  - intros Hd; symmetry; apply sorted_perm_unique; try assumption.
    + apply setEngines_sorted.
    + apply Permutation_sym, setEngines_perm.
Qed.

Lemma NoDup_names_perm (l l' : list SearchEngine) :
  Permutation l l' -> NoDup (map name l) -> NoDup (map name l').
Proof.
  intros HP; apply Permutation_NoDup, Permutation_map, HP.
Qed.

(** X8.  The list that [engines()] returns after [setEngines], given to
    [setEngines] again, is stored with the same names in the same rows;
    when the names of the engines are pairwise distinct it is stored as it
    is.  (Engines of equal name may change places among themselves.) *)
Theorem setEngines_idempotent :
  forall (l : list SearchEngine) (p q : Plugin),
    map name (searchEngines_ (setEngines (engines (setEngines l p)) q))
    = map name (searchEngines_ (setEngines l p))
    /\ (NoDup (map name l) ->
        searchEngines_ (setEngines (engines (setEngines l p)) q)
        = searchEngines_ (setEngines l p)).
Proof.
  intros l p q; unfold engines.
  destruct (setEngines_of_sorted (searchEngines_ (setEngines l p)) q
              (setEngines_sorted l p)) as [Hn He].
  split; [exact Hn|].
  intros Hd; apply He.
  apply (NoDup_names_perm l); [apply Permutation_sym, setEngines_perm | exact Hd].
Qed.

Lemma storable_retrim (e : SearchEngine) :
  storable e ->
  {| id := id e; name := name e; trigger := trimmed (trigger e);
     icon_path := icon_path e; url := url e; fallback := fallback e |} = e.
Proof.
  intros (_ & Hs & He); rewrite (trimmed_fixed _ Hs He); destruct e; reflexivity.
Qed.

Lemma map_retrim_storable (l : list SearchEngine) :
  Forall storable l ->
  map (fun e => {| id := id e; name := name e; trigger := trimmed (trigger e);
                   icon_path := icon_path e; url := url e;
                   fallback := fallback e |}) l = l.
Proof.
  induction 1 as [|e l He _ IH]; [reflexivity|].
  cbn [map]; rewrite (storable_retrim e He), IH; reflexivity.
Qed.

Lemma storable_has_id (l : list SearchEngine) :
  Forall storable l -> Forall (fun e => id e <> EmptyString) l.
Proof. apply Forall_impl; intros e He; apply He. Qed.

(** X1.  Round trip through the file format: engines that have an id and a
    trigger without surrounding whitespace are read back from what
    [serializeEngines] wrote as they were, in the same order, and no UUID is
    created. *)
Theorem serialize_round_trip :
  forall (l : list SearchEngine) (n : nat),
    Forall storable l ->
    deserializeEngines host (serializeEngines l) n = (l, n).
Proof.
  intros l n H.
  rewrite (deserialize_serializeEngines host l n (storable_has_id l H)).
  rewrite (map_retrim_storable l H); reflexivity.
Qed.

Lemma setEngines_file (l : list SearchEngine) (p : Plugin) :
  engines_json_writable p = true ->
  engines_json (setEngines l p)
  = Some (serializeEngines (searchEngines_ (setEngines l p))).
Proof. intros H; cbn; rewrite H; reflexivity. Qed.

(** X2.  Persist and reload: after [setEngines] has written storable engines,
    a constructor run on the file it left stores the same engines again,
    with the same ids and the same names row by row, without creating a
    UUID; when the names are pairwise distinct the stored list is the same
    list, in the same order. *)
Theorem persist_and_reload :
  forall (l : list SearchEngine) (p : Plugin),
    engines_json_writable p = true ->
    Forall storable l ->
    Permutation (searchEngines_ (Plugin_ctor host (setEngines l p)))
                (searchEngines_ (setEngines l p))
    /\ map name (searchEngines_ (Plugin_ctor host (setEngines l p)))
       = map name (searchEngines_ (setEngines l p))
    /\ uuids_created (Plugin_ctor host (setEngines l p)) = uuids_created p
    /\ (NoDup (map name l) ->
        searchEngines_ (Plugin_ctor host (setEngines l p))
        = searchEngines_ (setEngines l p)).
Proof.
  intros l p Hw Hl.
  assert (Hs : Forall storable (searchEngines_ (setEngines l p)))
    by (apply (Permutation_Forall (Permutation_sym (setEngines_perm l p))), Hl).
  unfold Plugin_ctor; rewrite (setEngines_file l p Hw).
  rewrite (deserialize_serializeEngines host _ _ (storable_has_id _ Hs)).
  rewrite (map_retrim_storable _ Hs).
  set (stored := searchEngines_ (setEngines l p)) in *.
  set (p1 := set_uuids_created (uuids_created (setEngines l p)) (setEngines l p)).
  destruct (setEngines_of_sorted stored p1 (setEngines_sorted l p)) as [Hn He].
  split; [apply setEngines_perm|].
  split; [exact Hn|].
  split; [reflexivity|].
  intros Hd; apply He.
  apply (NoDup_names_perm l); [apply Permutation_sym, setEngines_perm | exact Hd].
Qed.

Lemma loadEngines_length (f : QJsonObject -> nat -> SearchEngine * nat)
      (a : list QJsonValue) (n : nat) :
  List.length (fst (loadEngines f a n)) = List.length a.
Proof.
  revert n; induction a as [|v a IH]; intros n; [reflexivity|].
  cbn [loadEngines]; destruct (f (Json.toObject v) n) as [e n1].
  specialize (IH n1); destruct (loadEngines f a n1) as [es n2]; simpl in *.
  now rewrite IH.
Qed.

Lemma deserializeEngine_counter (o : QJsonObject) (n : nat) :
  n <= snd (deserializeEngine host o n) <= S n.
Proof.
  unfold deserializeEngine.
  match goal with |- context [if ?c then _ else _] => destruct c end; simpl; lia.
Qed.

Lemma deserializeEngines_counter (a : list QJsonValue) (n : nat) :
  n <= snd (loadEngines (deserializeEngine host) a n) <= n + List.length a.
Proof.
  revert n; induction a as [|v a IH]; intros n; [simpl; lia|].
  cbn [loadEngines].
  pose proof (deserializeEngine_counter (Json.toObject v) n) as H1.
  destruct (deserializeEngine host (Json.toObject v) n) as [e n1].
  specialize (IH n1); destruct (loadEngines _ a n1) as [es n2]; simpl in *; lia.
Qed.

(** X4.  [deserializeEngines] makes one engine of every element of the array,
    whatever the element holds; it creates at most one UUID per element; and
    a document that is no array gives no engine and creates no UUID. *)
Theorem deserializeEngines_shape :
  forall (json : QJsonDocument) (n : nat),
    List.length (fst (deserializeEngines host json n)) = List.length (Json.array json)
    /\ n <= snd (deserializeEngines host json n) <= n + List.length (Json.array json)
    /\ (match json with
        | DocArray _ => True
        | _ => deserializeEngines host json n = ([], n)
        end).
Proof.
  intros json n; unfold deserializeEngines; split; [|split].
  - apply loadEngines_length.
  - apply deserializeEngines_counter.
  - destruct json; (exact I || reflexivity).
Qed.

Lemma deserializeEngine_storable (o : QJsonObject) (n : nat) :
  (forall k, freshId host k <> EmptyString) ->
  storable (fst (deserializeEngine host o n)).
Proof.
  intros Hfresh; unfold storable; rewrite deserializeEngine_trigger.
  split; [|apply trimmed_stripped].
  unfold deserializeEngine.
  match goal with |- context [isEmpty ?x] => destruct x eqn:E end; simpl.
  - apply Hfresh.
  - discriminate.
Qed.

Lemma deserializeEngines_storable (json : QJsonDocument) (n : nat) :
  (forall k, freshId host k <> EmptyString) ->
  Forall storable (fst (deserializeEngines host json n)).
Proof.
  intros Hfresh; unfold deserializeEngines.
  pose proof (loadEngines_Forall2 (deserializeEngine host) (Json.array json) n) as H.
  induction H as [|v e a l [k ->] _ IH]; constructor; [|exact IH].
  apply deserializeEngine_storable, Hfresh.
Qed.

(** X3.  What [deserializeEngines] returns is fit for the file: provided the
    UUID generator never gives an empty text, every engine has an id and a
    stripped trigger, and writing the engines and reading them again gives
    the same engines and creates no UUID. *)
Theorem deserializeEngines_stable :
  forall (json : QJsonDocument) (n m : nat),
    (forall k, freshId host k <> EmptyString) ->
    Forall storable (fst (deserializeEngines host json n))
    /\ deserializeEngines host (serializeEngines (fst (deserializeEngines host json n))) m
       = (fst (deserializeEngines host json n), m).
Proof.
  intros json n m Hfresh.
  pose proof (deserializeEngines_storable json n Hfresh) as H; split; [exact H|].
  rewrite (deserialize_serializeEngines host _ m (storable_has_id _ H)).
  rewrite (map_retrim_storable _ H); reflexivity.
Qed.

Lemma loadEngines_default_ids (a : list QJsonValue) (n : nat) :
  map id (fst (loadEngines (defaultEngine host) a n))
  = map (freshId host) (seq n (List.length a))
  /\ snd (loadEngines (defaultEngine host) a n) = n + List.length a.
Proof.
  revert n; induction a as [|v a IH]; intros n; [simpl; split; [reflexivity | lia]|].
  cbn [loadEngines defaultEngine].
  specialize (IH (S n)); destruct (loadEngines _ a (S n)) as [es n2]; simpl in *.
  destruct IH as [-> ->]; split; [reflexivity | lia].
Qed.

(** X5.  [restoreDefaultEngines] with a readable resource stores one engine per
    element of the array of the defaults; their ids are the ids made of the
    next UUIDs, one UUID each. *)
Theorem restoreDefaultEngines_ids :
  forall (p : Plugin) (doc : QJsonDocument),
    resource_engines_json p = Some doc ->
    let p' := restoreDefaultEngines host p in
    Permutation (map id (searchEngines_ p'))
                (map (freshId host)
                     (seq (uuids_created p) (List.length (Json.array doc))))
    /\ List.length (searchEngines_ p') = List.length (Json.array doc)
    /\ uuids_created p' = uuids_created p + List.length (Json.array doc).
Proof.
  intros p doc H p'; subst p'; unfold restoreDefaultEngines; rewrite H.
  pose proof (loadEngines_default_ids (Json.array doc) (uuids_created p)) as [Hid Hn].
  pose proof (loadEngines_length (defaultEngine host) (Json.array doc) (uuids_created p))
    as Hlen.
  destruct (loadEngines _ _ _) as [l n]; simpl fst in *; simpl snd in *.
  split; [|split].
  - rewrite <- Hid; apply Permutation_map, setEngines_perm.
  - rewrite (Permutation_length (setEngines_perm l _)); exact Hlen.
  - exact Hn.
Qed.

Lemma setEngines_in_step (l : list SearchEngine) (p : Plugin) :
  in_step p (setEngines l p).
Proof. repeat split. Qed.

Lemma restoreDefaultEngines_in_step (p : Plugin) :
  in_step p (restoreDefaultEngines host p).
Proof.
  unfold restoreDefaultEngines.
  destruct (resource_engines_json p) as [doc|].
  - destruct (loadEngines _ _ _) as [l n].
    apply (setEngines_in_step l (set_uuids_created n p)).
  - apply (setEngines_in_step [] (log_critical FailedReadingDefaultEngines p)).
Qed.

Lemma Plugin_ctor_in_step (p : Plugin) : in_step p (Plugin_ctor host p).
Proof.
  unfold Plugin_ctor.
  destruct (engines_json p) as [content|] eqn:E.
  - destruct (deserializeEngines _ _ _) as [l n].
    destruct (setEngines_in_step l (set_uuids_created n p)) as (H1 & H2 & H3).
    repeat split; try assumption.
  - apply restoreDefaultEngines_in_step.
Qed.

Lemma mutate_in_step (m : Mutation) (p : Plugin) : in_step p (mutate host m p).
Proof.
  destruct m; unfold mutate;
    [apply setEngines_in_step | apply restoreDefaultEngines_in_step].
Qed.

Lemma in_step_synced (p0 p p' : Plugin) :
  (p = p0 \/ synced p0 p) -> in_step p p' -> synced p0 p'.
Proof.
  intros Hp (H1 & H2 & H3); unfold synced.
  split; [rewrite H1; reflexivity|].
  destruct Hp as [-> | (S1 & S2 & S3)]; [split; assumption|].
  split; [congruence|].
  rewrite H3, S2; destruct (engines_json_writable p0); [reflexivity | exact S3].
Qed.

Lemma fold_mutate_synced (ms : list Mutation) (p0 p : Plugin) :
  synced p0 p ->
  synced p0 (fold_left (fun q m => mutate host m q) ms p)
  /\ List.length (enginesChanged (fold_left (fun q m => mutate host m q) ms p))
     = List.length (enginesChanged p) + List.length ms.
Proof.
  revert p; induction ms as [|m ms IH]; intros p Hp; cbn [fold_left].
  - split; [exact Hp | simpl; lia].
  - pose proof (mutate_in_step m p) as Hm.
    destruct (IH _ (in_step_synced p0 p _ (or_intror Hp) Hm)) as [I1 I2].
    split; [exact I1|].
    rewrite I2; destruct Hm as (-> & _); simpl; lia.
Qed.

(** X6.  The observers and the file keep step with the store.  After the
    constructor and any sequence of [setEngines] and
    [restoreDefaultEngines], the latest [enginesChanged] signal carries the
    stored list, one signal has been emitted per operation, and the
    configuration file holds the serialised stored list if it can be
    written and its old content if it cannot. *)
Theorem run_in_step :
  forall (ms : list Mutation) (p : Plugin),
    synced p (run host ms p)
    /\ List.length (enginesChanged (run host ms p))
       = List.length (enginesChanged p) + 1 + List.length ms.
Proof.
  intros ms p; unfold run.
  pose proof (Plugin_ctor_in_step p) as Hc.
  destruct (fold_mutate_synced ms p (Plugin_ctor host p)
              (in_step_synced p p _ (or_introl eq_refl) Hc)) as [H1 H2].
  split; [exact H1|].
  rewrite H2; destruct Hc as (-> & _); simpl; lia.
Qed.

(** X7.  A configuration file that opens but holds no JSON array is replaced:
    the constructor stores no engine and, when the file can be written,
    overwrites it with the empty array, so the next start finds an empty
    list and does not restore the defaults either. *)
Theorem Plugin_ctor_overwrites_corrupt_file :
  forall (p : Plugin) (content : QJsonDocument),
    engines_json p = Some content ->
    Json.array content = [] ->
    engines_json_writable p = true ->
    let p' := Plugin_ctor host p in
    searchEngines_ p' = []
    /\ engines_json p' = Some (DocArray [])
    /\ searchEngines_ (Plugin_ctor host p') = [].
Proof.
  intros p content Hf Ha Hw p'; subst p'.
  assert (H : Plugin_ctor host p = setEngines [] p).
  { unfold Plugin_ctor, deserializeEngines; rewrite Hf, Ha; cbn [loadEngines].
    destruct p; reflexivity. }
  rewrite H; split; [reflexivity|].
  assert (Hj : engines_json (setEngines [] p) = Some (DocArray []))
    by (cbn; rewrite Hw; reflexivity).
  split; [exact Hj|].
  unfold Plugin_ctor; rewrite Hj; reflexivity.
Qed.

Lemma fallbacks_length (q : string) (l : list SearchEngine) :
  List.length (fallbacks host q l)
  = if isEmpty q then 0 else List.length (filter fallback l).
Proof.
  unfold fallbacks; destruct q as [|c q]; [reflexivity|].
  cbn [isEmpty negb]; induction l as [|e l IH]; [reflexivity|].
  cbn [flat_map filter]; rewrite length_app, IH.
  destruct (fallback e); reflexivity.
Qed.

Lemma filter_all {A : Type} (f : A -> bool) (l : list A) :
  Forall (fun x => f x = true) l -> filter f l = l.
Proof.
  induction 1 as [|x l Hx _ IH]; [reflexivity|]; simpl; rewrite Hx, IH; reflexivity.
Qed.

Lemma filter_none {A : Type} (f : A -> bool) (l : list A) :
  Forall (fun x => f x = false) l -> filter f l = [].
Proof.
  induction 1 as [|x l Hx _ IH]; [reflexivity|]; simpl; rewrite Hx, IH; reflexivity.
Qed.

Lemma loadEngines_fallback (f : QJsonObject -> nat -> SearchEngine * nat)
      (b : bool) (a : list QJsonValue) (n : nat) :
  (forall o k, Json.contains o CK_ENGINE_FALLBACK = false ->
               fallback (fst (f o k)) = b) ->
  Forall (fun v => Json.contains (Json.toObject v) CK_ENGINE_FALLBACK = false) a ->
  Forall (fun e => fallback e = b) (fst (loadEngines f a n)).
Proof.
  intros Hf Ha.
  pose proof (loadEngines_Forall2 f a n) as H.
  induction H as [|v e a' l [k ->] _ IH]; constructor.
  - apply Hf; apply (Forall_inv Ha).
  - apply IH; apply (Forall_inv_tail Ha).
Qed.

Lemma deserializeEngine_fallback_missing (o : QJsonObject) (k : nat) :
  Json.contains o CK_ENGINE_FALLBACK = false ->
  fallback (fst (deserializeEngine host o k)) = true.
Proof.
  intros H; unfold deserializeEngine; rewrite (value_missing o _ H).
  match goal with |- context [if ?c then _ else _] => destruct c end; reflexivity.
Qed.

Lemma defaultEngine_fallback_missing (o : QJsonObject) (k : nat) :
  Json.contains o CK_ENGINE_FALLBACK = false ->
  fallback (fst (defaultEngine host o k)) = false.
Proof.
  intros H; unfold defaultEngine; rewrite (value_missing o _ H); reflexivity.
Qed.

(** X10.  What the two defaults of the [fallback] key mean for [fallbacks]: when
    no record carries the key, a list loaded from the configuration file
    offers every engine as fallback for a query that is not empty, and a
    list restored from the defaults offers none. *)
Theorem fallbacks_after_load :
  (forall (p : Plugin) (content : QJsonDocument) (q : string),
      engines_json p = Some content ->
      Forall (fun v => Json.contains (Json.toObject v) CK_ENGINE_FALLBACK = false)
             (Json.array content) ->
      q <> EmptyString ->
      List.length (fallbacks host q (searchEngines_ (Plugin_ctor host p)))
      = List.length (Json.array content))
  /\
  (forall (p : Plugin) (doc : QJsonDocument) (q : string),
      resource_engines_json p = Some doc ->
      Forall (fun v => Json.contains (Json.toObject v) CK_ENGINE_FALLBACK = false)
             (Json.array doc) ->
      fallbacks host q (searchEngines_ (restoreDefaultEngines host p)) = []).
Proof.
  split.
  - intros p content q Hf Ha Hq.
    rewrite fallbacks_length; destruct q as [|c q]; [congruence|]; cbn [isEmpty].
    unfold Plugin_ctor; rewrite Hf.
    pose proof (loadEngines_fallback (deserializeEngine host) true (Json.array content)
                  (uuids_created p) deserializeEngine_fallback_missing Ha) as Hall.
    pose proof (loadEngines_length (deserializeEngine host) (Json.array content)
                  (uuids_created p)) as Hlen.
    unfold deserializeEngines; destruct (loadEngines _ _ _) as [l n]; simpl fst in *.
    rewrite filter_all.
    + rewrite (Permutation_length (setEngines_perm l _)); exact Hlen.
    + apply (Permutation_Forall (Permutation_sym (setEngines_perm l _))), Hall.
  - intros p doc q Hr Ha.
    apply length_zero_iff_nil; rewrite fallbacks_length.
    destruct (isEmpty q); [reflexivity|].
    unfold restoreDefaultEngines; rewrite Hr.
    pose proof (loadEngines_fallback (defaultEngine host) false (Json.array doc)
                  (uuids_created p) defaultEngine_fallback_missing Ha) as Hall.
    destruct (loadEngines _ _ _) as [l n]; simpl fst in *.
    rewrite filter_none; [reflexivity|].
    apply (Permutation_Forall (Permutation_sym (setEngines_perm l _))), Hall.
Qed.

Lemma sorted_by_name_names (l l' : list SearchEngine) :
  map name l = map name l' -> sorted_by_name l -> sorted_by_name l'.
Proof.
  unfold sorted_by_name; revert l'; induction l as [|x l IH]; intros [|x' l'] Hn Hs;
    try discriminate; [constructor|].
  injection Hn as Hx Hl; apply StronglySorted_inv in Hs as [Hs Hx'].
  constructor; [apply IH; assumption|].
  unfold name_le in *; rewrite <- Hx.
  apply Forall_forall; intros b Hb.
  assert (Hin : In (name b) (map name l)) by (rewrite Hl; apply in_map, Hb).
  apply in_map_iff in Hin as (a & Ha & Hin); rewrite <- Ha.
  apply (proj1 (Forall_forall _ _) Hx' a Hin).
Qed.

Lemma updateRow_spec (f : SearchEngine -> SearchEngine) (row : nat)
      (l : list SearchEngine) :
  row < List.length l ->
  exists l', updateRow f row l = Some l'
             /\ forall i, nth_error l' i
                          = option_map (fun e => if (i =? row)%nat then f e else e)
                                       (nth_error l i).
Proof.
  revert l; induction row as [|row IH]; intros [|e l] H; simpl in H; try lia.
  - exists (f e :: l); split; [reflexivity|].
    intros [|i]; [reflexivity|]; cbn; destruct (nth_error l i); reflexivity.
  - destruct (IH l ltac:(lia)) as (l' & Hl' & Hn).
    exists (e :: l'); split; [cbn; rewrite Hl'; reflexivity|].
    intros [|i]; [reflexivity|]; cbn [nth_error]; rewrite Hn; reflexivity.
Qed.

Lemma updateRow_names (f : SearchEngine -> SearchEngine) (row : nat)
      (l l' : list SearchEngine) :
  (forall e, name (f e) = name e) ->
  updateRow f row l = Some l' -> map name l' = map name l.
Proof.
  intros Hf; revert l l'; induction row as [|row IH]; intros [|e l] l' H;
    simpl in H; try discriminate.
  - injection H as <-; cbn; rewrite Hf; reflexivity.
  - destruct (updateRow f row l) as [l0|] eqn:E; [|discriminate].
    injection H as <-; cbn; rewrite (IH l l0 E); reflexivity.
Qed.

Lemma setTrigger_updateRow (row : nat) (value : string) (l : list SearchEngine) :
  setTrigger row value l = updateRow (withTrigger value) row l.
Proof.
  revert l; induction row as [|row IH]; intros [|e l]; try reflexivity.
  cbn; rewrite IH; reflexivity.
Qed.

Lemma setFallback_updateRow (row : nat) (checked : bool) (l : list SearchEngine) :
  setFallback row checked l = updateRow (withFallback checked) row l.
Proof.
  revert l; induction row as [|row IH]; intros [|e l]; try reflexivity.
  cbn; rewrite IH; reflexivity.
Qed.

Lemma edit_keeps_rows (f : SearchEngine -> SearchEngine) (row : nat) (p : Plugin) :
  (forall e, name (f e) = name e) ->
  sorted_by_name (searchEngines_ p) ->
  NoDup (map name (searchEngines_ p)) ->
  row < rowCount p ->
  exists l', updateRow f row (engines p) = Some l'
             /\ searchEngines_ (setEngines l' p) = l'
             /\ forall i, nth_error l' i
                          = option_map (fun e => if (i =? row)%nat then f e else e)
                                       (nth_error (searchEngines_ p) i).
Proof.
  intros Hf Hs Hd Hr; unfold rowCount, engines in *.
  destruct (updateRow_spec f row (searchEngines_ p) Hr) as (l' & Hl' & Hn).
  exists l'; split; [exact Hl' | split; [|exact Hn]].
  pose proof (updateRow_names f row _ _ Hf Hl') as Hnames.
  apply setEngines_of_sorted.
  - apply (sorted_by_name_names (searchEngines_ p)); [symmetry; exact Hnames | exact Hs].
  - rewrite Hnames; exact Hd.
Qed.

(** X9.  Editing a cell of the settings table keeps every engine in its row:
    for a store that is sorted by name, with names that are pairwise
    distinct, and a row of the table, [setData] on the trigger column or on
    the fallback column succeeds, and the list stored afterwards is the old
    one with the trigger, or the flag, of the engine in that row replaced. *)
Theorem setData_keeps_rows :
  forall (row : nat) (p : Plugin),
    sorted_by_name (searchEngines_ p) ->
    NoDup (map name (searchEngines_ p)) ->
    row < rowCount p ->
    (forall value : string,
        exists p', setData_trigger row value p = Some p'
                   /\ forall i, nth_error (searchEngines_ p') i
                                = option_map
                                    (fun e => if (i =? row)%nat
                                              then withTrigger value e else e)
                                    (nth_error (searchEngines_ p) i))
    /\
    (forall checked : bool,
        exists p', setData_fallback row checked p = Some p'
                   /\ forall i, nth_error (searchEngines_ p') i
                                = option_map
                                    (fun e => if (i =? row)%nat
                                              then withFallback checked e else e)
                                    (nth_error (searchEngines_ p) i)).
Proof.
  intros row p Hs Hd Hr; split.
  - intros value.
    destruct (edit_keeps_rows (withTrigger value) row p (fun e => eq_refl) Hs Hd Hr)
      as (l' & Hl' & Hst & Hn).
    exists (setEngines l' p); unfold setData_trigger.
    rewrite setTrigger_updateRow, Hl'; split; [reflexivity|].
    rewrite Hst; exact Hn.
  - intros checked.
    destruct (edit_keeps_rows (withFallback checked) row p (fun e => eq_refl) Hs Hd Hr)
      as (l' & Hl' & Hst & Hn).
    exists (setEngines l' p); unfold setData_fallback.
    rewrite setFallback_updateRow, Hl'; split; [reflexivity|].
    rewrite Hst; exact Hn.
Qed.

End MoreStoreFacts.

(* ------------------------------------------------------------------ *)
(** ** The further results at concrete inputs *)

Section MoreInstances.
Import Samples.

Lemma albert_freshId_not_empty : forall k, freshId albert k <> EmptyString.
Proof. intros k; unfold freshId; cbn; discriminate. Qed.

Lemma rankItems_score_bounds_witness :
  (0 <= MAX_SCORE albert)%Q
  /\ In {| item := buildItem albert google ""; score := (1 * (1 # 3))%Q |}
        (rankItems albert "g" [google])
  /\ (0 <= 1 * (1 # 3))%Q /\ (1 * (1 # 3) <= MAX_SCORE albert)%Q.
Proof.
  assert (Hmax : (0 <= MAX_SCORE albert)%Q) by (unfold Qle; simpl; lia).
  assert (Hin : In {| item := buildItem albert google ""; score := (1 * (1 # 3))%Q |}
                   (rankItems albert "g" [google])) by (left; reflexivity).
  split; [exact Hmax | split; [exact Hin|]].
  apply (rankItems_score_bounds albert "g" [google] _ Hmax Hin).
Defined.

Lemma full_score_iff_keyword_typed_witness :
  ~ (MAX_SCORE albert == 0)%Q
  /\ tryCandidate albert "gg banana" google "gg"
     = Some {| item := buildItem albert google "banana"; score := (1 * (3 # 3))%Q |}
  /\ ((1 * (3 # 3) == MAX_SCORE albert)%Q
      <-> startsWith (toLower "gg banana") (toLower "gg" ++ " ") = true).
Proof.
  assert (Hmax : ~ (MAX_SCORE albert == 0)%Q) by (intros H; vm_compute in H; discriminate).
  split; [exact Hmax | split; [reflexivity|]].
  apply (full_score_iff_keyword_typed albert "gg banana" google "gg"
           {| item := buildItem albert google "banana"; score := (1 * (3 # 3))%Q |}
           Hmax eq_refl).
Defined.


Lemma rankItems_case_insensitive_witness :
  toLower "GG Banana" = toLower "gg bANANA"
  /\ map (fun r => (item_id (item r), score r)) (rankItems albert "GG Banana" [google; wiki])
     = map (fun r => (item_id (item r), score r)) (rankItems albert "gg bANANA" [google; wiki]).
Proof.
  split; [reflexivity|].
  apply (rankItems_case_insensitive albert "GG Banana" "gg bANANA" [google; wiki]).
  reflexivity.
Defined.



Lemma buildItem_url_witness :
  (containsChar "%" (url intranet) = false
   /\ map action_openUrl (item_actions (buildItem albert intranet "a b"))
      = [url intranet])
  /\ (url google = "https://www.google.com/search?q=" ++ "%s" ++ ""
      /\ map action_openUrl (item_actions (buildItem albert google "a b"))
         = ["https://www.google.com/search?q=" ++ percentEncoded albert "a b" ++ ""]).
Proof.
  split; (split; [reflexivity|]).
  - apply (proj1 (buildItem_url albert) intranet "a b"); reflexivity.
  - apply (proj2 (buildItem_url albert) google "a b"
                 "https://www.google.com/search?q=" ""); reflexivity.
Defined.

Lemma google_github_storable : Forall storable [google; github].
Proof.
  repeat constructor; discriminate.
Qed.

Lemma serialize_round_trip_witness :
  Forall storable [google; github]
  /\ deserializeEngines albert (serializeEngines [google; github]) 3
     = ([google; github], 3).
Proof.
  split; [exact google_github_storable|].
  apply (serialize_round_trip albert [google; github] 3 google_github_storable).
Defined.

Lemma google_github_names : NoDup (map name [google; github]).
Proof.
  repeat constructor; simpl; intuition discriminate.
Qed.

Lemma persist_and_reload_witness :
  engines_json_writable (fresh None) = true
  /\ Forall storable [google; github]
  /\ NoDup (map name [google; github])
  /\ searchEngines_ (Plugin_ctor albert (setEngines [google; github] (fresh None)))
     = searchEngines_ (setEngines [google; github] (fresh None))
  /\ uuids_created (Plugin_ctor albert (setEngines [google; github] (fresh None)))
     = uuids_created (fresh None).
Proof.
  split; [reflexivity|].
  split; [exact google_github_storable|].
  split; [exact google_github_names|].
  destruct (persist_and_reload albert [google; github] (fresh None) eq_refl
              google_github_storable) as (_ & _ & Hu & He).
  split; [exact (He google_github_names) | exact Hu].
Defined.

Lemma setEngines_idempotent_witness :
  NoDup (map name [google; github])
  /\ searchEngines_ (setEngines (engines (setEngines [google; github] (fresh None)))
                                (fresh (Some DocNull)))
     = searchEngines_ (setEngines [google; github] (fresh None)).
Proof.
  split; [exact google_github_names|].
  apply (proj2 (setEngines_idempotent [google; github] (fresh None) (fresh (Some DocNull)))).
  exact google_github_names.
Defined.

Lemma deserializeEngines_stable_witness :
  (forall k, freshId albert k <> EmptyString)
  /\ Forall storable (fst (deserializeEngines albert defaults 0))
  /\ deserializeEngines albert
       (serializeEngines (fst (deserializeEngines albert defaults 0))) 5
     = (fst (deserializeEngines albert defaults 0), 5).
Proof.
  split; [exact albert_freshId_not_empty|].
  apply (deserializeEngines_stable albert defaults 0 5 albert_freshId_not_empty).
Defined.

Lemma restoreDefaultEngines_ids_witness :
  resource_engines_json (fresh None) = Some defaults
  /\ Permutation
       (map id (searchEngines_ (restoreDefaultEngines albert (fresh None))))
       (map (freshId albert) (seq 0 1))
  /\ List.length (searchEngines_ (restoreDefaultEngines albert (fresh None))) = 1
  /\ uuids_created (restoreDefaultEngines albert (fresh None)) = 1.
Proof.
  split; [reflexivity|].
  apply (restoreDefaultEngines_ids albert (fresh None) defaults eq_refl).
Defined.

Lemma Plugin_ctor_overwrites_corrupt_file_witness :
  engines_json (fresh (Some DocNull)) = Some DocNull
  /\ Json.array DocNull = []
  /\ engines_json_writable (fresh (Some DocNull)) = true
  /\ searchEngines_ (Plugin_ctor albert (fresh (Some DocNull))) = []
  /\ engines_json (Plugin_ctor albert (fresh (Some DocNull))) = Some (DocArray [])
  /\ searchEngines_ (Plugin_ctor albert (Plugin_ctor albert (fresh (Some DocNull)))) = [].
Proof.
  do 3 (split; [reflexivity|]).
  apply (Plugin_ctor_overwrites_corrupt_file albert (fresh (Some DocNull)) DocNull
           eq_refl eq_refl eq_refl).
Defined.

Lemma fallbacks_after_load_witness :
  (engines_json (fresh (Some (DocArray [JObject legacy_record])))
   = Some (DocArray [JObject legacy_record])
   /\ List.length
        (fallbacks albert "cats"
           (searchEngines_
              (Plugin_ctor albert (fresh (Some (DocArray [JObject legacy_record]))))))
      = 1)
  /\ (resource_engines_json (fresh None) = Some defaults
      /\ fallbacks albert "cats" (searchEngines_ (restoreDefaultEngines albert (fresh None)))
         = []).
Proof.
  split; (split; [reflexivity|]).
  - apply (proj1 (fallbacks_after_load albert)
                 (fresh (Some (DocArray [JObject legacy_record])))
                 (DocArray [JObject legacy_record]) "cats");
      [reflexivity | repeat constructor | discriminate].
  - apply (proj2 (fallbacks_after_load albert) (fresh None) defaults "cats");
      [reflexivity | repeat constructor].
Defined.

Lemma setData_keeps_rows_witness :
  sorted_by_name (searchEngines_ (setEngines [google; github] (fresh None)))
  /\ NoDup (map name (searchEngines_ (setEngines [google; github] (fresh None))))
  /\ 1 < rowCount (setEngines [google; github] (fresh None))
  /\ exists p',
       setData_trigger 1 "g" (setEngines [google; github] (fresh None)) = Some p'
       /\ forall i,
            nth_error (searchEngines_ p') i
            = option_map (fun e => if (i =? 1)%nat then withTrigger "g" e else e)
                         (nth_error (searchEngines_ (setEngines [google; github] (fresh None))) i).
Proof.
  assert (Hs : sorted_by_name (searchEngines_ (setEngines [google; github] (fresh None))))
    by (unfold sorted_by_name; cbn; repeat constructor).
  assert (Hd : NoDup (map name (searchEngines_ (setEngines [google; github] (fresh None)))))
    by (cbn; repeat constructor; simpl; intuition discriminate).
  assert (Hr : 1 < rowCount (setEngines [google; github] (fresh None)))
    by (unfold rowCount; cbn; lia).
  split; [exact Hs | split; [exact Hd | split; [exact Hr|]]].
  apply (proj1 (setData_keeps_rows 1 _ Hs Hd Hr) "g").
Defined.

End MoreInstances.
